(** * GTFamilyAi.io: the chat adapter and the submit/reveal handler of HTML.js

    A shallow embedding of [ChatAIClass.getResponse] and of the button's
    [onClick] handler of the [App] component, together with the interval
    callback that reveals a reply and the cleanup of the scene effect.

    JavaScript strings are sequences of UTF-16 code units.  The handler is
    asynchronous: it runs up to its [await], and is resumed when the promise
    of [chatManager.getCharacterResponse] settles.  The browser's event loop
    is modelled by a list of events, each of which runs one piece of the
    code to completion on an explicit world state.  Every call that leaves
    the handler (engine calls, React setters, timers, console) is recorded
    in a trace, in the order in which the code makes it. *)

From Stdlib Require Import List ZArith NArith Bool Lia String Ascii.
From Stdlib Require QArith_base.
Import ListNotations.

(* ------------------------------------------------------------------ *)
(** ** JavaScript strings *)

Module JS.

(** A string is its list of UTF-16 code units. *)
Definition jsstring : Type := list N.

(** ASCII literals, for readable examples. *)
Definition lit (s : string) : jsstring :=
  map N_of_ascii (list_ascii_of_string s).

(** The empty string ['']. *)
Definition empty : jsstring := [].

(** [s.length]. *)
Definition length (s : jsstring) : Z := Z.of_nat (List.length s).

(** ECMAScript WhiteSpace and LineTerminator code points, the ones
    [String.prototype.trim] strips. *)
Definition isWhiteSpace (c : N) : bool :=
  ((c =? 9) || (c =? 10) || (c =? 11) || (c =? 12) || (c =? 13)
   || (c =? 32) || (c =? 160) || (c =? 5760)
   || ((8192 <=? c) && (c <=? 8202))
   || (c =? 8232) || (c =? 8233) || (c =? 8239) || (c =? 8287)
   || (c =? 12288) || (c =? 65279))%N.

Fixpoint trimStart (s : jsstring) : jsstring :=
  match s with
  | [] => []
  | c :: rest => if isWhiteSpace c then trimStart rest else s
  end.

Definition trimEnd (s : jsstring) : jsstring := rev (trimStart (rev s)).

(** [s.trim()]. *)
Definition trim (s : jsstring) : jsstring := trimEnd (trimStart s).

(** ToBoolean on a string: only [''] is falsy. *)
Definition truthy (s : jsstring) : bool :=
  match s with [] => false | _ :: _ => true end.

(** [s.slice(start, end)] for integer arguments. *)
Definition slice (s : jsstring) (start end_ : Z) : jsstring :=
  let len := length s in
  let from := if (start <? 0)%Z then Z.max (len + start) 0 else Z.min start len in
  let to := if (end_ <? 0)%Z then Z.max (len + end_) 0 else Z.min end_ len in
  if (from >=? to)%Z then []
  else firstn (Z.to_nat (to - from)) (skipn (Z.to_nat from) s).

(** A string made of white space only (the empty string included). *)
Definition blank (s : jsstring) : bool := forallb isWhiteSpace s.

End JS.

Import JS.

(* ------------------------------------------------------------------ *)
(** ** Data *)

(** The two role literals passed to [addMessage]. *)
Inductive role : Type := user | assistant.

Record Turn : Type := { turn_role : role; turn_text : jsstring }.

(** A rejection value: whatever the engine throws. *)
Record JsError : Type := { error_message : jsstring }.

(** How an awaited promise settles. *)
Inductive Settled : Type :=
| Fulfilled (value : jsstring)
| Rejected (reason : JsError).

(** Modelled from the spec: the [ChatManager] class, which HTML.js uses
    as a global and does not define.  It is built from a description; it
    owns the append-only history of turns, to which [addMessage(role,
    text)] adds one turn; and [getCharacterResponse(mode)] returns a
    promise of the reply.  The reply itself is not computed here: it
    arrives as an event, and may be any string or any failure. *)
Record ChatManager : Type := {
  description : jsstring;
  messages : list Turn;
  requests : nat
}.

(** The closure of one [setInterval] call of the handler: its own
    [intervalId], the captured [result] and the counter [i]. *)
Record Interval : Type := {
  intervalId : nat;
  result : jsstring;
  i : Z;
  delay : Z
}.

(** The four [useState] cells of [App]. *)
Record ReactState : Type := {
  prompt : jsstring;
  response : jsstring;
  isLoading : bool;
  displayText : jsstring
}.

(** The steps of the scene effect's cleanup function. *)
Inductive CleanupStep : Type :=
| RemoveResizeListener
| RemoveRendererElement
| DisposeGeometry
| DisposeMaterial
| DisposeEmojis
| DisposeRenderer.

(** Calls that leave the code of HTML.js. *)
Inductive Effect : Type :=
| EAddMessage (r : role) (text : jsstring)
| EGetCharacterResponse (mode : jsstring) (promise : nat)
| ESetPrompt (s : jsstring)
| ESetResponse (s : jsstring)
| ESetIsLoading (b : bool)
| ESetDisplayText (s : jsstring)
| ESetInterval (id : nat) (ms : Z)
| EClearInterval (id : nat)
| EConsoleError (label : jsstring) (e : JsError)
| ECleanup (c : CleanupStep).

Record World : Type := {
  ui : ReactState;
  chatManager : ChatManager;
  awaiting : list nat;          (* promises a suspended handler waits for *)
  intervals : list Interval;    (* timers that are still scheduled *)
  nextIntervalId : nat;
  trace : list Effect
}.

Definition AI_BEHAVIOR_DESCRIPTION : jsstring := lit "
You are a compassionate and knowledgeable AI assistant dedicated to helping people with any challenge 
or question they face. Your responses should be:
1. Empathetic and understanding
2. Clear and actionable
3. Well-structured with practical steps when appropriate
4. Backed by general best practices
5. Safe and responsible
Keep responses concise but thorough. If a request requires professional help (medical, legal, etc.),
kindly suggest seeking appropriate professional assistance while providing general information.
".

(** [new ChatManager(description)]. *)
Definition newChatManager (d : jsstring) : ChatManager :=
  {| description := d; messages := []; requests := 0 |}.

(** The state of a freshly mounted [App]. *)
Definition init : World :=
  {| ui := {| prompt := empty; response := empty;
              isLoading := false; displayText := empty |};
     chatManager := newChatManager AI_BEHAVIOR_DESCRIPTION;
     awaiting := [];
     intervals := [];
     nextIntervalId := 0;
     trace := [] |}.

(* ------------------------------------------------------------------ *)
(** ** A state monad for the handler code *)

Definition M (A : Type) : Type := World -> A * World.

Definition ret {A} (a : A) : M A := fun w => (a, w).

Definition bind {A B} (m : M A) (k : A -> M B) : M B :=
  fun w => k (fst (m w)) (snd (m w)).

Declare Scope js_scope.
Delimit Scope js_scope with js.
Notation "x <- m ;; k" := (bind m (fun x => k))
  (at level 61, m at next level, right associativity) : js_scope.
Notation "m ;; k" := (bind m (fun _ => k))
  (at level 61, right associativity) : js_scope.
Open Scope js_scope.

Definition exec {A} (m : M A) (w : World) : World := snd (m w).

Definition gets {A} (f : World -> A) : M A := fun w => (f w, w).

Definition emit (e : Effect) : M unit :=
  fun w => (tt, {| ui := ui w; chatManager := chatManager w;
                   awaiting := awaiting w; intervals := intervals w;
                   nextIntervalId := nextIntervalId w;
                   trace := trace w ++ [e] |}).

Definition modify_ui (f : ReactState -> ReactState) : M unit :=
  fun w => (tt, {| ui := f (ui w); chatManager := chatManager w;
                   awaiting := awaiting w; intervals := intervals w;
                   nextIntervalId := nextIntervalId w;
                   trace := trace w |}).

Definition modify_chatManager (f : ChatManager -> ChatManager) : M unit :=
  fun w => (tt, {| ui := ui w; chatManager := f (chatManager w);
                   awaiting := awaiting w; intervals := intervals w;
                   nextIntervalId := nextIntervalId w;
                   trace := trace w |}).

Definition modify_awaiting (f : list nat -> list nat) : M unit :=
  fun w => (tt, {| ui := ui w; chatManager := chatManager w;
                   awaiting := f (awaiting w); intervals := intervals w;
                   nextIntervalId := nextIntervalId w;
                   trace := trace w |}).

Definition modify_intervals (f : list Interval -> list Interval) : M unit :=
  fun w => (tt, {| ui := ui w; chatManager := chatManager w;
                   awaiting := awaiting w; intervals := f (intervals w);
                   nextIntervalId := nextIntervalId w;
                   trace := trace w |}).

Definition fresh_interval_id : M nat :=
  fun w => (nextIntervalId w,
            {| ui := ui w; chatManager := chatManager w;
               awaiting := awaiting w; intervals := intervals w;
               nextIntervalId := S (nextIntervalId w);
               trace := trace w |}).

(* ------------------------------------------------------------------ *)
(** ** The React setters *)

Definition setPrompt (s : jsstring) : M unit :=
  emit (ESetPrompt s) ;;
  modify_ui (fun u => {| prompt := s; response := response u;
                         isLoading := isLoading u; displayText := displayText u |}).

Definition setResponse (s : jsstring) : M unit :=
  emit (ESetResponse s) ;;
  modify_ui (fun u => {| prompt := prompt u; response := s;
                         isLoading := isLoading u; displayText := displayText u |}).

Definition setIsLoading (b : bool) : M unit :=
  emit (ESetIsLoading b) ;;
  modify_ui (fun u => {| prompt := prompt u; response := response u;
                         isLoading := b; displayText := displayText u |}).

Definition setDisplayText (s : jsstring) : M unit :=
  emit (ESetDisplayText s) ;;
  modify_ui (fun u => {| prompt := prompt u; response := response u;
                         isLoading := isLoading u; displayText := s |}).

(* ------------------------------------------------------------------ *)
(** ** The engine calls, timers and console *)

(** [chatManager.addMessage(role, text)]. *)
Definition addMessage (r : role) (text : jsstring) : M unit :=
  emit (EAddMessage r text) ;;
  modify_chatManager (fun c =>
    {| description := description c;
       messages := messages c ++ [{| turn_role := r; turn_text := text |}];
       requests := requests c |}).

(** [chatManager.getCharacterResponse(mode)]: the call returns a promise,
    named here by the number of the request. *)
Definition getCharacterResponse (mode : jsstring) : M nat :=
  p <- gets (fun w => requests (chatManager w)) ;;
  emit (EGetCharacterResponse mode p) ;;
  modify_chatManager (fun c =>
    {| description := description c; messages := messages c;
       requests := S (requests c) |}) ;;
  ret p.

(** [setInterval(callback, ms)], where the callback closes over [res]
    and a counter that starts at 0. *)
Definition setInterval (res : jsstring) (ms : Z) : M nat :=
  id <- fresh_interval_id ;;
  emit (ESetInterval id ms) ;;
  modify_intervals (fun l =>
    l ++ [{| intervalId := id; result := res; i := 0; delay := ms |}]) ;;
  ret id.

Definition clearInterval (id : nat) : M unit :=
  emit (EClearInterval id) ;;
  modify_intervals (filter (fun t => negb (Nat.eqb (intervalId t) id))).

Definition console_error (label : jsstring) (e : JsError) : M unit :=
  emit (EConsoleError label e).

(* ------------------------------------------------------------------ *)
(** ** ChatAIClass *)

(** [getResponse(prompt)] up to its [await]: the user turn is added and
    the reply is requested; the function then suspends on the promise. *)
Definition getResponse_start (p : jsstring) : M nat :=
  addMessage user p ;;
  getCharacterResponse (lit "classify").

(** [getResponse] after its [await]: a fulfilled promise yields the
    reply, which is added as the assistant turn and returned; a rejected
    one throws out of the function, so its own promise rejects with the
    same reason. *)
Definition getResponse_resume (o : Settled) : M Settled :=
  match o with
  | Fulfilled reply => addMessage assistant reply ;; ret (Fulfilled reply)
  | Rejected e => ret (Rejected e)
  end.

(** One whole call, given how the engine's promise settles. *)
Definition getResponse (p : jsstring) (o : Settled) : M Settled :=
  getResponse_start p ;;
  getResponse_resume o.

(* ------------------------------------------------------------------ *)
(** ** The App component *)

(** The callback given to [setInterval], run for the timer [t]. *)
Definition intervalCallback (t : Interval) : M unit :=
  if (i t <=? JS.length (result t))%Z then
    setDisplayText (slice (result t) 0 (i t)) ;;
    modify_intervals (map (fun t' =>
      if Nat.eqb (intervalId t') (intervalId t)
      then {| intervalId := intervalId t'; result := result t';
              i := i t' + 1; delay := delay t' |}
      else t'))
  else
    clearInterval (intervalId t).

(** The button's [onClick], up to its [await]. *)
Definition onClick : M unit :=
  p <- gets (fun w => prompt (ui w)) ;;
  loading <- gets (fun w => isLoading (ui w)) ;;
  if negb (truthy (trim p)) || loading then ret tt
  else
    setIsLoading true ;;
    setResponse empty ;;
    setDisplayText empty ;;
    promise <- getResponse_start p ;;
    modify_awaiting (fun a => a ++ [promise]).

(** The rest of [onClick], run when the awaited call settles: the [try]
    body, the [catch] and the [finally]. *)
Definition onClick_resume (o : Settled) : M unit :=
  r <- getResponse_resume o ;;
  match r with
  | Fulfilled res =>
      setResponse res ;;
      _ <- setInterval res 30 ;;
      ret tt
  | Rejected error =>
      console_error (lit "Error:") error
  end ;;
  setIsLoading false.

(** The function returned by the scene effect, as it runs with the mount
    node still attached and the renderer's element among its children:
    its six steps, none of which touches a cell or a timer.  What it does
    object by object, and how it fails when [mountRef.current] is null,
    is in [Scene.cleanup]. *)
Definition cleanup : M unit :=
  emit (ECleanup RemoveResizeListener) ;;
  emit (ECleanup RemoveRendererElement) ;;
  emit (ECleanup DisposeGeometry) ;;
  emit (ECleanup DisposeMaterial) ;;
  emit (ECleanup DisposeEmojis) ;;
  emit (ECleanup DisposeRenderer).

(** The output region: [{response && <div>{displayText}</div>}]. *)
Definition outputRegion (w : World) : option jsstring :=
  if truthy (response (ui w)) then Some (displayText (ui w)) else None.

(* ------------------------------------------------------------------ *)
(** ** The event loop *)

Inductive Event : Type :=
| Change (text : jsstring)          (* the input's onChange *)
| Click                             (* the button's onClick *)
| Settle (promise : nat) (o : Settled)  (* an engine promise settles *)
| Tick (id : nat)                   (* a timer fires *)
| Unmount.                          (* the effect's cleanup runs *)

Definition find_interval (id : nat) (l : list Interval) : option Interval :=
  find (fun t => Nat.eqb (intervalId t) id) l.

Definition step (ev : Event) : M unit :=
  match ev with
  | Change text => setPrompt text
  | Click => onClick
  | Settle p o =>
      a <- gets awaiting ;;
      if existsb (Nat.eqb p) a then
        modify_awaiting (filter (fun q => negb (Nat.eqb q p))) ;;
        onClick_resume o
      else ret tt
  | Tick id =>
      l <- gets intervals ;;
      match find_interval id l with
      | Some t => intervalCallback t
      | None => ret tt
      end
  | Unmount => cleanup
  end.

(** A run of the page in which the component has rendered again before
    each event is handled, so that every handler meets the cells as its
    predecessors left them.  Runs in which a handler meets the constants
    of an older render are those of [page_run]. *)
Definition run (evs : list Event) (w : World) : World :=
  fold_left (fun w' ev => exec (step ev) w') evs w.

(** States the page can be in. *)
Definition reachable (w : World) : Prop := exists evs, w = run evs init.

(** Number of reply requests recorded in a trace. *)
Definition is_request (e : Effect) : bool :=
  match e with EGetCharacterResponse _ _ => true | _ => false end.

Definition request_count (tr : list Effect) : nat :=
  List.length (filter is_request tr).

Definition is_setPrompt (e : Effect) : bool :=
  match e with ESetPrompt _ => true | _ => false end.

(** A reveal is in progress: a reply is stored and not all of it is shown. *)
Definition revealing (w : World) : bool :=
  (JS.length (displayText (ui w)) <? JS.length (response (ui w)))%Z.

(** Events that settle the promise [p]. *)
Definition settles (p : nat) (ev : Event) : bool :=
  match ev with Settle q _ => Nat.eqb q p | _ => false end.

Definition is_change (ev : Event) : bool :=
  match ev with Change _ => true | _ => false end.

Definition is_click (ev : Event) : bool :=
  match ev with Click => true | _ => false end.

(** The timer [id] with its counter advanced by [n]. *)
Definition bump (id : nat) (n : Z) (t : Interval) : Interval :=
  if Nat.eqb (intervalId t) id
  then {| intervalId := intervalId t; result := result t;
          i := i t + n; delay := delay t |}
  else t.

(** In every state of the page, [isLoading] is true exactly while one
    handler is suspended on the engine. *)
Definition loading_invariant (w : World) : Prop :=
  (isLoading (ui w) = true /\ exists p, awaiting w = [p])
  \/ (isLoading (ui w) = false /\ awaiting w = []).

(** A handler is suspended on the promise [p], with the reply cleared. *)
Definition submitting (p : nat) (w : World) : Prop :=
  isLoading (ui w) = true /\ awaiting w = [p] /\ response (ui w) = empty.

(** [R] is fully shown, no handler is suspended, and every timer still
    scheduled has run past the end of its reply. *)
Definition reveal_done (R : jsstring) (w : World) : Prop :=
  displayText (ui w) = R
  /\ awaiting w = []
  /\ Forall (fun t => (JS.length (result t) < i t)%Z) (intervals w).

(** The cells and counters a timer tick leaves alone. *)
Definition same_but_reveal (w w' : World) : Prop :=
  prompt (ui w') = prompt (ui w)
  /\ response (ui w') = response (ui w)
  /\ isLoading (ui w') = isLoading (ui w)
  /\ chatManager w' = chatManager w
  /\ awaiting w' = awaiting w
  /\ nextIntervalId w' = nextIntervalId w.

(** *** Concrete runs of the page *)


(** The reply [abc] has arrived and one character of it is shown. *)
Definition reveal_in_progress : World :=
  run [Change (lit "hi"); Click; Settle 0 (Fulfilled (lit "abc"));
       Tick 0; Tick 0] init.

(** A second submit, pressed during that reveal. *)
Definition resubmitted : World := exec (step Click) reveal_in_progress.

(** A second submit during the reveal of [abcdef]; its reply [x] arrives
    and is revealed while the first timer goes on ticking. *)
Definition overlapped_reveals : World :=
  run [Change (lit "hi"); Click; Settle 0 (Fulfilled (lit "abcdef"));
       Tick 0; Click; Tick 0; Settle 1 (Fulfilled (lit "x"));
       Tick 0; Tick 1; Tick 0; Tick 1] init.


(** *** Invariants of the page *)

(** Reading a history from its first turn: [Some true] when the last
    turn is a user turn still without reply, [Some false] when every user
    turn read so far that has a reply is followed by it and none is open,
    [None] once an assistant turn came with no user turn open before it. *)
Definition history_step (st : option bool) (t : Turn) : option bool :=
  match st with
  | None => None
  | Some open =>
      match turn_role t with
      | user => Some true
      | assistant => if open then Some false else None
      end
  end.

Definition history_state (h : list Turn) : option bool :=
  fold_left history_step h (Some false).

Definition is_user (t : Turn) : bool :=
  match turn_role t with user => true | assistant => false end.

(** The engine said [R]: the history holds an assistant turn carrying it. *)
Definition said (w : World) (R : jsstring) : Prop :=
  In {| turn_role := assistant; turn_text := R |} (messages (chatManager w)).

(** A scheduled timer whose counter is within reach of its reply. *)
Definition timer_ok (next : nat) (t : Interval) : Prop :=
  (0 <= i t <= JS.length (result t) + 1)%Z
  /\ intervalId t < next
  /\ delay t = 30%Z.

Definition timers_ok (w : World) : Prop :=
  Forall (timer_ok (nextIntervalId w)) (intervals w)
  /\ NoDup (map intervalId (intervals w)).

(** What is displayed comes from the engine. *)
Definition shown_ok (w : World) : Prop :=
  Forall (fun t => (0 <= i t)%Z /\ said w (result t)) (intervals w)
  /\ (displayText (ui w) = []
      \/ exists R k, said w R /\ displayText (ui w) = firstn k R).

(** The stored reply is hidden while loading and is the last turn. *)
Definition reply_ok (w : World) : Prop :=
  (isLoading (ui w) = true -> response (ui w) = empty)
  /\ (response (ui w) = empty
      \/ exists h, messages (chatManager w)
                   = h ++ [{| turn_role := assistant;
                              turn_text := response (ui w) |}]).

(** Every user turn was followed by one reply request. *)
Definition requests_ok (w : World) : Prop :=
  List.length (filter is_user (messages (chatManager w)))
  = requests (chatManager w)
  /\ request_count (trace w) = requests (chatManager w).

Definition is_tick (id : nat) (ev : Event) : bool :=
  match ev with Tick id' => Nat.eqb id' id | _ => false end.

(** Number of firings of the timer [id] among the events. *)
Definition count_ticks (id : nat) (evs : list Event) : nat :=
  List.length (filter (is_tick id) evs).

(** *** What the component renders

    The parts of the JSX that depend on state: the output region, the
    input's [value], and the button's [disabled], [cursor], [opacity] and
    text.  The opacity literals 0.7 and 1 are kept as decimal fractions. *)
Record View : Type := {
  output : option jsstring;
  inputValue : jsstring;
  buttonDisabled : bool;
  buttonCursor : jsstring;
  buttonOpacity : QArith_base.Q;
  buttonText : jsstring
}.

Definition render (w : World) : View :=
  {| output := if truthy (response (ui w))
               then Some (displayText (ui w)) else None;
     inputValue := prompt (ui w);
     buttonDisabled := isLoading (ui w);
     buttonCursor := if isLoading (ui w)
                     then lit "not-allowed" else lit "pointer";
     buttonOpacity := if isLoading (ui w)
                      then QArith_base.Qmake 7 10 else QArith_base.Qmake 1 1;
     buttonText := if isLoading (ui w)
                   then lit "Thinking..." else lit "Generate" |}.

(* ------------------------------------------------------------------ *)
(** ** The scene effect

    The [useEffect] of [App] and the cleanup it returns, on the objects
    they construct and the stores they change: [emojisRef.current], the
    children of the node in [mountRef.current], the window's resize
    listeners, the scene's children, and the calls of [dispose].  An
    object is known by the number it got when it was constructed.
    Numbers computed in floating point are not evaluated: they are kept
    as the expressions of the source over the successive values of
    [Math.random()].  The body of [animate], whose branches compare
    floating-point numbers, is not modelled; its call is counted. *)

Module Scene.

Inductive num : Type :=
| Lit (q : QArith_base.Q)
| Random (k : nat)                 (* the k-th value of Math.random() *)
| Add (a b : num)
| Sub (a b : num)
| Mul (a b : num)
| Floor (a : num).

Definition int (n : Z) : num := Lit (QArith_base.Qmake n 1).
Definition dec (n : Z) (d : positive) : num := Lit (QArith_base.Qmake n d).

(** [new THREE.CanvasTexture(canvas)], the canvas showing [emojis[glyph]]. *)
Record Texture : Type := { texture_id : nat; canvas_id : nat; glyph : num }.

(** [new THREE.SpriteMaterial({ map: texture, ... })]. *)
Record SpriteMaterial : Type := { material_id : nat; material_map : Texture }.

(** [new THREE.Sprite(material)] with its position and [userData]. *)
Record Sprite : Type := {
  sprite_id : nat;
  sprite_material : SpriteMaterial;
  position_x : num;
  position_y : num;
  position_z : num;
  initialY : num;
  speed : num
}.

Inductive Exception : Type :=
| TypeError          (* a property read on null *)
| NotFoundError.     (* removeChild of a node that is not a child *)

(** The [const] bindings of the effect, in scope of the cleanup. *)
Record Locals : Type := {
  scene : nat;
  camera : nat;
  renderer : nat;
  handleResize : nat;
  geometry : nat;
  material : nat;
  sphere : nat;
  particleGeometry : nat;
  positions : list num;
  particleMaterial : nat;
  particles : nat
}.

Record Stage : Type := {
  nextId : nat;                       (* objects constructed so far *)
  draws : nat;                        (* calls of Math.random() so far *)
  emojisRef : list Sprite;            (* emojisRef.current *)
  mountRef : option (list nat);       (* mountRef.current: null, or the
                                         node, by the list of its children *)
  sceneChildren : list (nat * nat);   (* scene.add(object), per scene *)
  resizeListeners : list nat;         (* window's 'resize' listeners *)
  disposed : list nat;                (* dispose() calls, in order *)
  animateCalls : nat                  (* calls of animate() by the effect *)
}.

Definition SM (A : Type) : Type := Stage -> (Exception + A) * Stage.

Definition sret {A} (a : A) : SM A := fun st => (inr a, st).

Definition sbind {A B} (m : SM A) (k : A -> SM B) : SM B :=
  fun st => match m st with
            | (inl e, st') => (inl e, st')
            | (inr a, st') => k a st'
            end.

Definition throw {A} (e : Exception) : SM A := fun st => (inl e, st).

Declare Scope scene_scope.
Notation "x <- m ;; k" := (sbind m (fun x => k))
  (at level 61, m at next level, right associativity) : scene_scope.
Notation "m ;; k" := (sbind m (fun _ => k))
  (at level 61, right associativity) : scene_scope.
Local Open Scope scene_scope.

(** [new ...]: the next object. *)
Definition construct : SM nat :=
  fun st => (inr (nextId st),
             {| nextId := S (nextId st); draws := draws st;
                emojisRef := emojisRef st; mountRef := mountRef st;
                sceneChildren := sceneChildren st;
                resizeListeners := resizeListeners st;
                disposed := disposed st; animateCalls := animateCalls st |}).

(** [Math.random()]. *)
Definition random : SM num :=
  fun st => (inr (Random (draws st)),
             {| nextId := nextId st; draws := S (draws st);
                emojisRef := emojisRef st; mountRef := mountRef st;
                sceneChildren := sceneChildren st;
                resizeListeners := resizeListeners st;
                disposed := disposed st; animateCalls := animateCalls st |}).

(** [emojisRef.current.push(sprite)]. *)
Definition emojisRef_push (s : Sprite) : SM unit :=
  fun st => (inr tt,
             {| nextId := nextId st; draws := draws st;
                emojisRef := emojisRef st ++ [s]; mountRef := mountRef st;
                sceneChildren := sceneChildren st;
                resizeListeners := resizeListeners st;
                disposed := disposed st; animateCalls := animateCalls st |}).

(** [scene.add(object)]. *)
Definition scene_add (sc obj : nat) : SM unit :=
  fun st => (inr tt,
             {| nextId := nextId st; draws := draws st;
                emojisRef := emojisRef st; mountRef := mountRef st;
                sceneChildren := sceneChildren st ++ [(sc, obj)];
                resizeListeners := resizeListeners st;
                disposed := disposed st; animateCalls := animateCalls st |}).

Definition set_mountRef (m : option (list nat)) : SM unit :=
  fun st => (inr tt,
             {| nextId := nextId st; draws := draws st;
                emojisRef := emojisRef st; mountRef := m;
                sceneChildren := sceneChildren st;
                resizeListeners := resizeListeners st;
                disposed := disposed st; animateCalls := animateCalls st |}).

Definition set_resizeListeners (l : list nat) : SM unit :=
  fun st => (inr tt,
             {| nextId := nextId st; draws := draws st;
                emojisRef := emojisRef st; mountRef := mountRef st;
                sceneChildren := sceneChildren st;
                resizeListeners := l;
                disposed := disposed st; animateCalls := animateCalls st |}).

(** [mountRef.current.appendChild(element)]. *)
Definition mountRef_appendChild (el : nat) : SM unit :=
  fun st => match mountRef st with
            | None => throw TypeError st
            | Some kids =>
                set_mountRef
                  (Some (filter (fun k => negb (Nat.eqb k el)) kids ++ [el])) st
            end.

(** [mountRef.current.removeChild(element)]. *)
Definition mountRef_removeChild (el : nat) : SM unit :=
  fun st => match mountRef st with
            | None => throw TypeError st
            | Some kids =>
                if existsb (Nat.eqb el) kids
                then set_mountRef
                       (Some (filter (fun k => negb (Nat.eqb k el)) kids)) st
                else throw NotFoundError st
            end.

(** [window.addEventListener('resize', f)]: a listener already there is
    not added again. *)
Definition addResizeListener (f : nat) : SM unit :=
  fun st => if existsb (Nat.eqb f) (resizeListeners st)
            then (inr tt, st)
            else set_resizeListeners (resizeListeners st ++ [f]) st.

(** [window.removeEventListener('resize', f)]. *)
Definition removeResizeListener (f : nat) : SM unit :=
  fun st => set_resizeListeners
              (filter (fun g => negb (Nat.eqb g f)) (resizeListeners st)) st.

(** [object.dispose()]. *)
Definition dispose (obj : nat) : SM unit :=
  fun st => (inr tt,
             {| nextId := nextId st; draws := draws st;
                emojisRef := emojisRef st; mountRef := mountRef st;
                sceneChildren := sceneChildren st;
                resizeListeners := resizeListeners st;
                disposed := disposed st ++ [obj];
                animateCalls := animateCalls st |}).

(** [animate()], counted and no more: its body, which moves every
    sprite and draws a random number for a sprite fallen below -20, is
    not modelled.  Nothing proved of the effect speaks of the positions
    of the sprites after it or of the number of [Math.random()] calls. *)
Definition animate : SM unit :=
  fun st => (inr tt,
             {| nextId := nextId st; draws := draws st;
                emojisRef := emojisRef st; mountRef := mountRef st;
                sceneChildren := sceneChildren st;
                resizeListeners := resizeListeners st;
                disposed := disposed st;
                animateCalls := S (animateCalls st) |}).

Definition emojis_length : Z := 9.
Definition emojiParticleCount : nat := 15.
Definition backgroundParticleCount : nat := 200.

(** The body of the first loop. *)
Definition emoji_iteration (sc : nat) : SM unit :=
  r <- random ;;
  canvas <- construct ;;
  texture <- construct ;;
  mat <- construct ;;
  sprite <- construct ;;
  rx <- random ;;
  ry <- random ;;
  rz <- random ;;
  rs <- random ;;
  emojisRef_push
    {| sprite_id := sprite;
       sprite_material :=
         {| material_id := mat;
            material_map := {| texture_id := texture; canvas_id := canvas;
                               glyph := Floor (Mul r (int emojis_length)) |} |};
       position_x := Sub (Mul rx (int 40)) (int 20);
       position_y := Sub (Mul ry (int 40)) (int 20);
       position_z := Sub (Mul rz (int 10)) (int 15);
       initialY := Sub (Mul ry (int 40)) (int 20);
       speed := Add (dec 15 1000) (Mul rs (dec 1 100)) |} ;;
  scene_add sc sprite.

(** [for (let i = 0; i < emojiParticleCount; i++) { ... }], by the number
    of iterations left. *)
Fixpoint emoji_loop (sc : nat) (left : nat) : SM unit :=
  match left with
  | 0 => sret tt
  | S left' => emoji_iteration sc ;; emoji_loop sc left'
  end.

(** [array[index] = v] on a typed array: a write outside it is dropped. *)
Fixpoint array_set (index : nat) (v : num) (a : list num) : list num :=
  match a, index with
  | [], _ => []
  | _ :: rest, 0 => v :: rest
  | x :: rest, S index' => x :: array_set index' v rest
  end.

(** [(Math.random() - 0.5) * 30]. *)
Definition spread (r : num) : num := Mul (Sub r (dec 1 2)) (int 30).

(** [for (let i = 0; i < bound; i += 3) { positions[i] = ...;
    positions[i + 1] = ...; positions[i + 2] = ... }], with the number of
    [Math.random()] calls made before, returning that number and the
    array; [None] when the fuel runs out. *)
Fixpoint positions_loop (fuel : nat) (bound : nat) (index : nat) (drawn : nat)
  (a : list num) : option (nat * list num) :=
  match fuel with
  | 0 => None
  | S fuel' =>
      if Nat.ltb index bound then
        positions_loop fuel' bound (index + 3) (drawn + 3)
          (array_set (index + 2) (spread (Random (drawn + 2)))
             (array_set (index + 1) (spread (Random (drawn + 1)))
                (array_set index (spread (Random drawn)) a)))
      else Some (drawn, a)
  end.

(** [new Float32Array(backgroundParticleCount * 3)] and the second loop. *)
Definition fill_positions : SM (list num) :=
  fun st =>
    let bound := backgroundParticleCount * 3 in
    match positions_loop (S backgroundParticleCount) bound 0 (draws st)
                         (repeat (int 0) bound) with
    | Some (drawn, a) =>
        (inr a,
         {| nextId := nextId st; draws := drawn;
            emojisRef := emojisRef st; mountRef := mountRef st;
            sceneChildren := sceneChildren st;
            resizeListeners := resizeListeners st;
            disposed := disposed st; animateCalls := animateCalls st |})
    | None => (inr (repeat (int 0) bound), st)
    end.

(** The function given to [useEffect]. *)
Definition effect : SM Locals :=
  sc <- construct ;;
  emoji_loop sc emojiParticleCount ;;
  cam <- construct ;;
  rend <- construct ;;
  resize <- construct ;;
  mountRef_appendChild rend ;;
  addResizeListener resize ;;
  geo <- construct ;;
  mat <- construct ;;
  sph <- construct ;;
  scene_add sc sph ;;
  pgeo <- construct ;;
  _ <- construct ;;
  pos <- fill_positions ;;
  _ <- construct ;;
  pmat <- construct ;;
  pts <- construct ;;
  scene_add sc pts ;;
  animate ;;
  sret {| scene := sc; camera := cam; renderer := rend;
          handleResize := resize; geometry := geo; material := mat;
          sphere := sph; particleGeometry := pgeo; positions := pos;
          particleMaterial := pmat; particles := pts |}.

(** [emojisRef.current.forEach(emoji => { emoji.material.map.dispose();
    emoji.material.dispose(); })]. *)
Fixpoint dispose_emojis (l : list Sprite) : SM unit :=
  match l with
  | [] => sret tt
  | emoji :: rest =>
      dispose (texture_id (material_map (sprite_material emoji))) ;;
      dispose (material_id (sprite_material emoji)) ;;
      dispose_emojis rest
  end.

(** The function the effect returns. *)
Definition cleanup (l : Locals) : SM unit :=
  removeResizeListener (handleResize l) ;;
  mountRef_removeChild (renderer l) ;;
  dispose (geometry l) ;;
  dispose (material l) ;;
  (fun st => dispose_emojis (emojisRef st) st) ;;
  dispose (renderer l).

(** What the cleanup disposes of for one sprite. *)
Definition sprite_disposals (s : Sprite) : list nat :=
  [texture_id (material_map (sprite_material s));
   material_id (sprite_material s)].

(** The sprite built by the iteration that starts with [n] objects
    constructed and [d] random numbers drawn. *)
Definition sprite_at (n d : nat) : Sprite :=
  {| sprite_id := n + 3;
     sprite_material :=
       {| material_id := n + 2;
          material_map := {| texture_id := n + 1; canvas_id := n;
                             glyph := Floor (Mul (Random d) (int emojis_length)) |} |};
     position_x := Sub (Mul (Random (d + 1)) (int 40)) (int 20);
     position_y := Sub (Mul (Random (d + 2)) (int 40)) (int 20);
     position_z := Sub (Mul (Random (d + 3)) (int 10)) (int 15);
     initialY := Sub (Mul (Random (d + 2)) (int 40)) (int 20);
     speed := Add (dec 15 1000) (Mul (Random (d + 4)) (dec 1 100)) |}.

(** A stage in which every object named is one constructed before. *)
Definition well_formed (st : Stage) : Prop :=
  Forall (fun f => f < nextId st) (resizeListeners st)
  /\ (forall kids, mountRef st = Some kids ->
        Forall (fun k => k < nextId st) kids)
  /\ Forall (fun s => texture_id (material_map (sprite_material s)) < nextId st
                      /\ material_id (sprite_material s) < nextId st)
            (emojisRef st).

(** The page before the component is mounted, with the node attached. *)
Definition first_mount : Stage :=
  {| nextId := 0; draws := 0; emojisRef := []; mountRef := Some [];
     sceneChildren := []; resizeListeners := []; disposed := [];
     animateCalls := 0 |}.

End Scene.

(** *** A reveal that runs alone *)

Definition is_setDisplayText (e : Effect) : bool :=
  match e with ESetDisplayText _ => true | _ => false end.

(** The calls of [setDisplayText] recorded in a trace, in order. *)
Definition display_writes (tr : list Effect) : list Effect :=
  filter is_setDisplayText tr.

(** The timer [tid] of the reply [R] has fired [k] times, it is the only
    timer there can be, and no handler is suspended. *)
Definition revealing_at (tid : nat) (R : jsstring) (k : nat) (w : World) : Prop :=
  awaiting w = []
  /\ intervals w
     = (if Nat.leb k (List.length R + 1)
        then [{| intervalId := tid; result := R; i := Z.of_nat k; delay := 30 |}]
        else [])
  /\ (1 <= k ->
      displayText (ui w) = firstn (Nat.min (k - 1) (List.length R)) R).

(** The prefixes written by the firings number [k] to [k + c - 1]. *)
Definition reveal_writes (R : jsstring) (k c : nat) : list Effect :=
  map (fun j => ESetDisplayText (firstn j R))
      (seq k (Nat.min (k + c) (List.length R + 1) - k)).

(** *** Handlers and renders

    The [onClick] of the button is created anew by every render and reads
    the [prompt] and [isLoading] constants of that render, not the cells:
    a click handled before the component has rendered again meets the
    values of the last render.  A page is the world together with the
    cells as the last render saw them; a render takes the cells anew.  The
    other handlers, the continuation of [onClick] and the timer callback
    read no state. *)
Record Page : Type := {
  world : World;
  rendered : ReactState
}.

(** The [onClick] created by a render that saw [r], up to its [await]. *)
Definition onClick_of (r : ReactState) : M unit :=
  if negb (truthy (trim (prompt r))) || isLoading r then ret tt
  else
    setIsLoading true ;;
    setResponse empty ;;
    setDisplayText empty ;;
    promise <- getResponse_start (prompt r) ;;
    modify_awaiting (fun a => a ++ [promise]).

Inductive PageEvent : Type :=
| Handle (ev : Event)      (* an event is handled *)
| Render.                  (* the component renders again *)

Definition page_step (e : PageEvent) (pg : Page) : Page :=
  match e with
  | Render => {| world := world pg; rendered := ui (world pg) |}
  | Handle Click =>
      {| world := exec (onClick_of (rendered pg)) (world pg);
         rendered := rendered pg |}
  | Handle ev =>
      {| world := exec (step ev) (world pg); rendered := rendered pg |}
  end.

Definition page_run (evs : list PageEvent) (pg : Page) : Page :=
  fold_left (fun pg' e => page_step e pg') evs pg.

(** A page that has just been rendered. *)
Definition page_of (w : World) : Page := {| world := w; rendered := ui w |}.

(** The events, each followed by a render before the next is handled. *)
Definition rendered_each (evs : list Event) : list PageEvent :=
  flat_map (fun ev => [Handle ev; Render]) evs.

(** The objects that make up a sprite. *)
Definition sprite_parts (s : Scene.Sprite) : nat * nat * nat * nat :=
  (Scene.sprite_id s,
   Scene.material_id (Scene.sprite_material s),
   Scene.texture_id (Scene.material_map (Scene.sprite_material s)),
   Scene.canvas_id (Scene.material_map (Scene.sprite_material s))).

(* ------------------------------------------------------------------ *)
(** ** Strings: trim and slice *)

Lemma trimStart_nil_iff (s : jsstring) : trimStart s = [] <-> blank s = true.
Proof.
  induction s as [|c s IH]; cbn.
  - tauto.
  - destruct (isWhiteSpace c); cbn.
    + exact IH.
    + split; discriminate.
Qed.

Lemma trimStart_head (s : jsstring) :
  match trimStart s with
  | [] => True
  | c :: _ => isWhiteSpace c = false
  end.
Proof.
  induction s as [|c s IH]; cbn; [exact I|].
  destruct (isWhiteSpace c) eqn:E; [exact IH | exact E].
Qed.

Lemma blank_app (s t : jsstring) : blank (s ++ t) = blank s && blank t.
Proof. apply forallb_app. Qed.

Lemma blank_rev (s : jsstring) : blank (rev s) = blank s.
Proof.
  induction s as [|c s IH]; cbn; [reflexivity|].
  rewrite blank_app, IH. cbn. rewrite andb_true_r. apply andb_comm.
Qed.

(** [trim] leaves nothing exactly on the strings made of white space. *)
Lemma trim_nil_iff (s : jsstring) : trim s = [] <-> blank s = true.
Proof.
  unfold trim, trimEnd. split.
  - intros H.
    assert (H1 : trimStart (rev (trimStart s)) = []).
    { destruct (trimStart (rev (trimStart s))) as [|c l]; [reflexivity|].
      cbn in H. destruct (rev l); discriminate. }
    apply trimStart_nil_iff in H1. rewrite blank_rev in H1.
    pose proof (trimStart_head s) as Hh.
    destruct (trimStart s) as [|c r] eqn:E.
    + now apply trimStart_nil_iff.
    + cbn in H1. rewrite Hh in H1. discriminate.
  - intros H. apply trimStart_nil_iff in H. rewrite H. reflexivity.
Qed.

Lemma truthy_false_iff (s : jsstring) : truthy s = false <-> s = [].
Proof. destruct s; cbn; split; congruence. Qed.

(** [slice(0, k)] is the prefix of [k] code units. *)
Lemma slice_prefix (s : jsstring) (k : Z) :
  (0 <= k)%Z -> slice s 0 k = firstn (Z.to_nat k) s.
Proof.
  intros Hk. unfold slice, JS.length. cbn [Z.ltb Z.compare].
  assert (Hk' : (k <? 0)%Z = false) by (apply Z.ltb_ge; lia).
  rewrite Hk'. rewrite Z.min_l by lia.
  destruct (0 >=? Z.min k (Z.of_nat (List.length s)))%Z eqn:E.
  - apply Z.geb_le in E.
    assert (Hz : Z.to_nat k = 0 \/ s = []).
    { destruct s; [now right|]. left. cbn [List.length] in E. lia. }
    destruct Hz as [-> | ->]; [reflexivity | now rewrite firstn_nil].
  - cbn [Z.to_nat skipn]. rewrite Z.sub_0_r.
    destruct (Z.le_ge_cases k (Z.of_nat (List.length s))) as [Hle|Hge].
    + now rewrite Z.min_l.
    + rewrite Z.min_r by lia. rewrite Nat2Z.id.
      rewrite firstn_all. symmetry. apply firstn_all2. lia.
Qed.

Lemma request_count_app (l l' : list Effect) :
  request_count (l ++ l') = request_count l + request_count l'.
Proof. unfold request_count. now rewrite filter_app, length_app. Qed.

(* ------------------------------------------------------------------ *)
(** ** ChatAIClass.getResponse *)

Section Adapter.

Variable P : jsstring.
Variable w : World.

(** The promise the call of [getResponse] in [w] waits for. *)
Let promise : nat := requests (chatManager w).

Lemma getResponse_start_promise : fst (getResponse_start P w) = promise.
Proof. reflexivity. Qed.

Lemma getResponse_start_trace :
  trace (exec (getResponse_start P) w)
  = trace w ++ [EAddMessage user P;
                EGetCharacterResponse (lit "classify") promise].
Proof. cbn. now rewrite <- app_assoc. Qed.

Lemma getResponse_start_messages :
  messages (chatManager (exec (getResponse_start P) w))
  = messages (chatManager w) ++ [{| turn_role := user; turn_text := P |}].
Proof. reflexivity. Qed.

(** C1: on a reply [R] of the engine, [getResponse(P)] adds the user
    turn carrying [P], then makes one reply request, then adds the
    assistant turn carrying [R], and returns [R]: these are the three
    calls it makes, in this order, and the history grows by exactly
    these two turns. *)
Theorem getResponse_steps_in_order (R : jsstring) :
  fst (getResponse P (Fulfilled R) w) = Fulfilled R
  /\ trace (exec (getResponse P (Fulfilled R)) w)
     = trace w ++ [EAddMessage user P;
                   EGetCharacterResponse (lit "classify") promise;
                   EAddMessage assistant R]
  /\ messages (chatManager (exec (getResponse P (Fulfilled R)) w))
     = messages (chatManager w)
       ++ [{| turn_role := user; turn_text := P |};
           {| turn_role := assistant; turn_text := R |}].
Proof.
  split; [reflexivity|]. split.
  - cbn. rewrite <- !app_assoc. reflexivity.
  - cbn. rewrite <- app_assoc. reflexivity.
Qed.

(** C2: when the reply request fails with [e], [getResponse(P)] fails
    with the same [e]; the user turn stays in the history, no assistant
    turn is added, and the request is not made a second time. *)
Theorem getResponse_failure_propagates (e : JsError) :
  fst (getResponse P (Rejected e) w) = Rejected e
  /\ trace (exec (getResponse P (Rejected e)) w)
     = trace w ++ [EAddMessage user P;
                   EGetCharacterResponse (lit "classify") promise]
  /\ messages (chatManager (exec (getResponse P (Rejected e)) w))
     = messages (chatManager w) ++ [{| turn_role := user; turn_text := P |}]
  /\ request_count (trace (exec (getResponse P (Rejected e)) w))
     = S (request_count (trace w)).
Proof.
  split; [reflexivity|]. split; [|split].
  - cbn. rewrite <- app_assoc. reflexivity.
  - reflexivity.
  - cbn -[request_count]. rewrite <- app_assoc, request_count_app. cbn. lia.
Qed.

Lemma getResponse_returns (o : Settled) : fst (getResponse P o w) = o.
Proof. destruct o; reflexivity. Qed.

Lemma getResponse_one_request (o : Settled) :
  request_count (trace (exec (getResponse P o) w))
  = S (request_count (trace w)).
Proof.
  destruct o; cbn -[request_count];
    rewrite <- ?app_assoc, request_count_app; cbn; lia.
Qed.

Lemma getResponse_requests (o : Settled) :
  requests (chatManager (exec (getResponse P o) w)) = S promise.
Proof. destruct o; reflexivity. Qed.

End Adapter.

(** C8: every call of [getResponse] makes one reply request, whatever the
    outcome; a second call with the same prompt makes a request of its
    own, on a new promise, and returns what that request yields, not the
    earlier reply. *)
Theorem getResponse_single_round_trip (P : jsstring) (o1 o2 : Settled) (w : World) :
  let w1 := exec (getResponse P o1) w in
  let w2 := exec (getResponse P o2) w1 in
  request_count (trace w1) = 1 + request_count (trace w)
  /\ request_count (trace w2) = 2 + request_count (trace w)
  /\ fst (getResponse P o1 w) = o1
  /\ fst (getResponse P o2 w1) = o2
  /\ fst (getResponse_start P w) <> fst (getResponse_start P w1).
Proof.
  cbv zeta. repeat split.
  - apply getResponse_one_request.
  - rewrite !getResponse_one_request. reflexivity.
  - apply getResponse_returns.
  - apply getResponse_returns.
  - rewrite !getResponse_start_promise, getResponse_requests. lia.
Qed.

(* ------------------------------------------------------------------ *)
(** ** What each event does *)

Lemma onClick_guard (w : World) :
  negb (truthy (trim (prompt (ui w)))) || isLoading (ui w) = true
  <-> trim (prompt (ui w)) = [] \/ isLoading (ui w) = true.
Proof.
  rewrite orb_true_iff, negb_true_iff, truthy_false_iff. tauto.
Qed.

Lemma onClick_ignored (w : World) :
  trim (prompt (ui w)) = [] \/ isLoading (ui w) = true ->
  exec (step Click) w = w.
Proof.
  intros H. apply onClick_guard in H.
  unfold exec, step, onClick, bind, gets. cbn [fst snd].
  rewrite H. reflexivity.
Qed.

Lemma onClick_accepted (w : World) :
  trim (prompt (ui w)) <> [] -> isLoading (ui w) = false ->
  exec (step Click) w =
  {| ui := {| prompt := prompt (ui w); response := empty;
              isLoading := true; displayText := empty |};
     chatManager :=
       {| description := description (chatManager w);
          messages := messages (chatManager w)
                      ++ [{| turn_role := user; turn_text := prompt (ui w) |}];
          requests := S (requests (chatManager w)) |};
     awaiting := awaiting w ++ [requests (chatManager w)];
     intervals := intervals w;
     nextIntervalId := nextIntervalId w;
     trace := trace w ++ [ESetIsLoading true; ESetResponse empty;
                          ESetDisplayText empty;
                          EAddMessage user (prompt (ui w));
                          EGetCharacterResponse (lit "classify")
                            (requests (chatManager w))] |}.
Proof.
  intros Hp Hl.
  assert (G : negb (truthy (trim (prompt (ui w)))) || isLoading (ui w) = false).
  { destruct (negb (truthy (trim (prompt (ui w)))) || isLoading (ui w)) eqn:E;
      [|reflexivity].
    apply onClick_guard in E. destruct E; congruence. }
  unfold exec, step, onClick, bind, gets. cbn [fst snd].
  rewrite G. cbn. rewrite <- !app_assoc. reflexivity.
Qed.

Lemma settle_ignored (w : World) (p : nat) (o : Settled) :
  existsb (Nat.eqb p) (awaiting w) = false ->
  exec (step (Settle p o)) w = w.
Proof.
  intros H. unfold exec, step, bind, gets. cbn [fst snd].
  rewrite H. reflexivity.
Qed.

Lemma settle_fulfilled (w : World) (p : nat) (R : jsstring) :
  existsb (Nat.eqb p) (awaiting w) = true ->
  exec (step (Settle p (Fulfilled R))) w =
  {| ui := {| prompt := prompt (ui w); response := R;
              isLoading := false; displayText := displayText (ui w) |};
     chatManager :=
       {| description := description (chatManager w);
          messages := messages (chatManager w)
                      ++ [{| turn_role := assistant; turn_text := R |}];
          requests := requests (chatManager w) |};
     awaiting := filter (fun q => negb (Nat.eqb q p)) (awaiting w);
     intervals := intervals w
                  ++ [{| intervalId := nextIntervalId w; result := R;
                         i := 0; delay := 30 |}];
     nextIntervalId := S (nextIntervalId w);
     trace := trace w ++ [EAddMessage assistant R; ESetResponse R;
                          ESetInterval (nextIntervalId w) 30;
                          ESetIsLoading false] |}.
Proof.
  intros H. unfold exec, step, bind, gets. cbn [fst snd].
  rewrite H. cbn. rewrite <- !app_assoc. reflexivity.
Qed.

Lemma settle_rejected (w : World) (p : nat) (e : JsError) :
  existsb (Nat.eqb p) (awaiting w) = true ->
  exec (step (Settle p (Rejected e))) w =
  {| ui := {| prompt := prompt (ui w); response := response (ui w);
              isLoading := false; displayText := displayText (ui w) |};
     chatManager := chatManager w;
     awaiting := filter (fun q => negb (Nat.eqb q p)) (awaiting w);
     intervals := intervals w;
     nextIntervalId := nextIntervalId w;
     trace := trace w ++ [EConsoleError (lit "Error:") e;
                          ESetIsLoading false] |}.
Proof.
  intros H. unfold exec, step, bind, gets. cbn [fst snd].
  rewrite H. cbn. rewrite <- !app_assoc. reflexivity.
Qed.

Lemma tick_none (w : World) (id : nat) :
  find_interval id (intervals w) = None ->
  exec (step (Tick id)) w = w.
Proof.
  intros H. unfold exec, step, bind, gets. cbn [fst snd].
  rewrite H. reflexivity.
Qed.

Lemma tick_reveal (w : World) (id : nat) (t : Interval) :
  find_interval id (intervals w) = Some t ->
  (i t <= JS.length (result t))%Z ->
  exec (step (Tick id)) w =
  {| ui := {| prompt := prompt (ui w); response := response (ui w);
              isLoading := isLoading (ui w);
              displayText := slice (result t) 0 (i t) |};
     chatManager := chatManager w;
     awaiting := awaiting w;
     intervals := map (fun t' =>
                    if Nat.eqb (intervalId t') (intervalId t)
                    then {| intervalId := intervalId t'; result := result t';
                            i := i t' + 1; delay := delay t' |}
                    else t') (intervals w);
     nextIntervalId := nextIntervalId w;
     trace := trace w ++ [ESetDisplayText (slice (result t) 0 (i t))] |}.
Proof.
  intros H Hi. apply Z.leb_le in Hi.
  unfold exec, step, bind, gets. cbn [fst snd].
  rewrite H. unfold intervalCallback. rewrite Hi. reflexivity.
Qed.

Lemma tick_clear (w : World) (id : nat) (t : Interval) :
  find_interval id (intervals w) = Some t ->
  (JS.length (result t) < i t)%Z ->
  exec (step (Tick id)) w =
  {| ui := ui w;
     chatManager := chatManager w;
     awaiting := awaiting w;
     intervals := filter (fun t' => negb (Nat.eqb (intervalId t') (intervalId t)))
                         (intervals w);
     nextIntervalId := nextIntervalId w;
     trace := trace w ++ [EClearInterval (intervalId t)] |}.
Proof.
  intros H Hi. apply Z.leb_gt in Hi.
  unfold exec, step, bind, gets. cbn [fst snd].
  rewrite H. unfold intervalCallback. rewrite Hi. reflexivity.
Qed.

Lemma find_interval_id (id : nat) (l : list Interval) (t : Interval) :
  find_interval id l = Some t -> intervalId t = id /\ In t l.
Proof.
  intros H. apply find_some in H. destruct H as [Hin He].
  apply Nat.eqb_eq in He. auto.
Qed.

Lemma change_exec (w : World) (text : jsstring) :
  exec (step (Change text)) w =
  {| ui := {| prompt := text; response := response (ui w);
              isLoading := isLoading (ui w);
              displayText := displayText (ui w) |};
     chatManager := chatManager w; awaiting := awaiting w;
     intervals := intervals w; nextIntervalId := nextIntervalId w;
     trace := trace w ++ [ESetPrompt text] |}.
Proof. reflexivity. Qed.

Lemma unmount_exec (w : World) :
  exec (step Unmount) w =
  {| ui := ui w; chatManager := chatManager w; awaiting := awaiting w;
     intervals := intervals w; nextIntervalId := nextIntervalId w;
     trace := trace w ++ [ECleanup RemoveResizeListener;
                          ECleanup RemoveRendererElement;
                          ECleanup DisposeGeometry; ECleanup DisposeMaterial;
                          ECleanup DisposeEmojis; ECleanup DisposeRenderer] |}.
Proof. cbn. rewrite <- !app_assoc. reflexivity. Qed.

Lemma run_app (evs evs' : list Event) (w : World) :
  run (evs ++ evs') w = run evs' (run evs w).
Proof. apply fold_left_app. Qed.

Lemma run_cons (ev : Event) (evs : list Event) (w : World) :
  run (ev :: evs) w = run evs (exec (step ev) w).
Proof. reflexivity. Qed.

Lemma onClick_dec (w : World) :
  {trim (prompt (ui w)) = [] \/ isLoading (ui w) = true}
  + {trim (prompt (ui w)) <> [] /\ isLoading (ui w) = false}.
Proof.
  destruct (trim (prompt (ui w))) as [|c s].
  - left. now left.
  - destruct (isLoading (ui w)).
    + left. now right.
    + right. split; [discriminate | reflexivity].
Defined.

(** Case analysis on what [step ev] does in [w]: the goal is rewritten
    with the matching equation above. *)
Ltac step_cases ev w :=
  let text := fresh "text" in
  let p := fresh "p" in
  let o := fresh "o" in
  let id := fresh "id" in
  let t := fresh "t" in
  let Hg := fresh "Hguard" in
  let Hp := fresh "Hprompt" in
  let Hl := fresh "Hloading" in
  let Ha := fresh "Hawait" in
  let Hf := fresh "Hfind" in
  let Hi := fresh "Hi" in
  destruct ev as [text| |p o|id|];
  [ rewrite (change_exec w text)
  | destruct (onClick_dec w) as [Hg|[Hp Hl]];
    [ rewrite (onClick_ignored w Hg) | rewrite (onClick_accepted w Hp Hl) ]
  | destruct (existsb (Nat.eqb p) (awaiting w)) eqn:Ha;
    [ destruct o;
      [ rewrite (settle_fulfilled w p _ Ha) | rewrite (settle_rejected w p _ Ha) ]
    | rewrite (settle_ignored w p o Ha) ]
  | destruct (find_interval id (intervals w)) as [t|] eqn:Hf;
    [ destruct (Z_le_gt_dec (i t) (JS.length (result t))) as [Hi|Hi];
      [ rewrite (tick_reveal w id t Hf Hi)
      | rewrite (tick_clear w id t Hf (proj1 (Z.gt_lt_iff _ _) Hi)) ]
    | rewrite (tick_none w id Hf) ]
  | rewrite (unmount_exec w) ].

(* ------------------------------------------------------------------ *)
(** ** The submit guard *)

(** C6: a submit with an empty or white-space-only prompt, or while
    [isLoading] is true, changes nothing at all: no call is recorded (so
    [getResponse] is not invoked), the engine history is the same, and
    [isLoading], [response], [displayText] and [prompt] keep their values;
    with a blank prompt and [isLoading] false, [isLoading] is still false. *)
Theorem submit_blank_or_loading_is_noop (w : World) :
  blank (prompt (ui w)) = true \/ isLoading (ui w) = true ->
  exec (step Click) w = w
  /\ trace (exec (step Click) w) = trace w
  /\ messages (chatManager (exec (step Click) w)) = messages (chatManager w)
  /\ ui (exec (step Click) w) = ui w
  /\ (isLoading (ui w) = false -> isLoading (ui (exec (step Click) w)) = false).
Proof.
  intros H.
  assert (E : exec (step Click) w = w).
  { apply onClick_ignored. destruct H as [H|H]; [left|now right].
    now apply trim_nil_iff. }
  rewrite E. repeat split; auto.
Qed.

Lemma submit_blank_or_loading_is_noop_witness :
  let w := run [Change (lit "   ")] init in
  exec (step Click) w = w
  /\ trace (exec (step Click) w) = trace w
  /\ messages (chatManager (exec (step Click) w)) = messages (chatManager w)
  /\ ui (exec (step Click) w) = ui w
  /\ (isLoading (ui w) = false -> isLoading (ui (exec (step Click) w)) = false).
Proof.
  apply (submit_blank_or_loading_is_noop (run [Change (lit "   ")] init)).
  left. reflexivity.
Defined.

(** C9: when the guard lets a submit through (trimmed prompt not empty,
    not loading), the user turn added to the engine history carries the
    prompt exactly as typed, white space around it included: the trimmed
    string is only tested, never passed on. *)
Theorem submit_forwards_prompt_verbatim (w : World) :
  trim (prompt (ui w)) <> [] -> isLoading (ui w) = false ->
  messages (chatManager (exec (step Click) w))
  = messages (chatManager w)
    ++ [{| turn_role := user; turn_text := prompt (ui w) |}]
  /\ trace (exec (step Click) w)
     = trace w ++ [ESetIsLoading true; ESetResponse empty;
                   ESetDisplayText empty;
                   EAddMessage user (prompt (ui w));
                   EGetCharacterResponse (lit "classify")
                     (requests (chatManager w))].
Proof.
  intros Hp Hl. rewrite (onClick_accepted w Hp Hl). split; reflexivity.
Qed.

Lemma submit_forwards_prompt_verbatim_witness :
  let w := run [Change (lit "  hi  ")] init in
  trim (prompt (ui w)) = lit "hi"
  /\ messages (chatManager (exec (step Click) w))
     = [{| turn_role := user; turn_text := lit "  hi  " |}].
Proof.
  split; [reflexivity|].
  apply (submit_forwards_prompt_verbatim (run [Change (lit "  hi  ")] init));
    [discriminate | reflexivity].
Defined.

(* ------------------------------------------------------------------ *)
(** ** The prompt cell is only written by the input *)

Lemma step_keeps_prompt (ev : Event) (w : World) :
  is_change ev = false ->
  prompt (ui (exec (step ev) w)) = prompt (ui w)
  /\ exists new, trace (exec (step ev) w) = trace w ++ new
                 /\ forallb (fun e => negb (is_setPrompt e)) new = true.
Proof.
  intros Hc. step_cases ev w; try discriminate Hc;
    (split; [reflexivity|]);
    first [ eexists; split; [reflexivity | reflexivity]
          | exists []; split; [now rewrite app_nil_r | reflexivity] ].
Qed.

(** C10: over any run of the page in which the user does not edit the
    input (submits, engine replies and failures, timer ticks, teardown),
    [prompt] keeps the value it had, and no call of [setPrompt] is made:
    the handler and the timer write only the other three cells. *)
Theorem submission_never_writes_prompt (evs : list Event) (w : World) :
  forallb (fun ev => negb (is_change ev)) evs = true ->
  prompt (ui (run evs w)) = prompt (ui w)
  /\ exists new, trace (run evs w) = trace w ++ new
                 /\ forallb (fun e => negb (is_setPrompt e)) new = true.
Proof.
  revert w. induction evs as [|ev evs IH]; intros w H.
  - split; [reflexivity|]. exists []. now rewrite app_nil_r.
  - cbn [forallb] in H. apply andb_true_iff in H. destruct H as [Hev Hevs].
    apply negb_true_iff in Hev.
    rewrite run_cons.
    destruct (IH (exec (step ev) w) Hevs) as [Hp [new2 [Ht Hn2]]].
    destruct (step_keeps_prompt ev w Hev) as [Hp1 [new1 [Ht1 Hn1]]].
    split; [congruence|].
    exists (new1 ++ new2). split.
    + rewrite Ht, Ht1. now rewrite app_assoc.
    + rewrite forallb_app, Hn1, Hn2. reflexivity.
Qed.

Lemma submission_never_writes_prompt_witness :
  prompt (ui (run [Click; Settle 0 (Fulfilled (lit "abc")); Tick 0; Tick 0]
                  (run [Change (lit "hi")] init)))
  = lit "hi".
Proof.
  apply (submission_never_writes_prompt
           [Click; Settle 0 (Fulfilled (lit "abc")); Tick 0; Tick 0]
           (run [Change (lit "hi")] init)).
  reflexivity.
Defined.

(* ------------------------------------------------------------------ *)
(** ** When a submit is accepted *)

Lemma awaiting_single (p q : nat) :
  existsb (Nat.eqb p) [q] = true ->
  p = q /\ filter (fun q' => negb (Nat.eqb q' p)) [q] = [].
Proof.
  cbn. rewrite orb_false_r. intros H. apply Nat.eqb_eq in H. subst q.
  split; [reflexivity|]. now rewrite Nat.eqb_refl.
Qed.

Lemma loading_invariant_step (ev : Event) (w : World) :
  loading_invariant w -> loading_invariant (exec (step ev) w).
Proof.
  intros Inv. unfold loading_invariant in *.
  step_cases ev w; cbn [ui awaiting isLoading]; try exact Inv.
  - (* accepted submit *)
    destruct Inv as [[Ht _]|[_ Ha]]; [congruence|].
    left. split; [reflexivity|]. rewrite Ha. eexists. reflexivity.
  - (* reply *)
    destruct Inv as [[_ [q Hq]]|[_ Ha]].
    + rewrite Hq in *. destruct (awaiting_single _ _ Hawait) as [_ ->]. now right.
    + rewrite Ha in Hawait. discriminate.
  - (* failure *)
    destruct Inv as [[_ [q Hq]]|[_ Ha]].
    + rewrite Hq in *. destruct (awaiting_single _ _ Hawait) as [_ ->]. now right.
    + rewrite Ha in Hawait. discriminate.
Qed.

Lemma loading_invariant_run (evs : list Event) (w : World) :
  loading_invariant w -> loading_invariant (run evs w).
Proof.
  revert w. induction evs as [|ev evs IH]; intros w Inv; [exact Inv|].
  rewrite run_cons. apply IH. now apply loading_invariant_step.
Qed.

Lemma reachable_loading_invariant (w : World) :
  reachable w -> loading_invariant w.
Proof.
  intros [evs ->]. apply loading_invariant_run. right. split; reflexivity.
Qed.

Lemma onClick_accepted_changes (w : World) :
  trim (prompt (ui w)) <> [] -> isLoading (ui w) = false ->
  exec (step Click) w <> w.
Proof.
  intros Hp Hl E. rewrite (onClick_accepted w Hp Hl) in E.
  apply (f_equal (fun x => List.length (trace x))) in E.
  cbn in E. rewrite length_app in E. cbn in E. lia.
Qed.

Lemma in_existsb (p : nat) (l : list nat) :
  In p l -> existsb (Nat.eqb p) l = true.
Proof.
  intros H. apply existsb_exists. exists p. split; [exact H|apply Nat.eqb_refl].
Qed.

Lemma onClick_of_rendered (w : World) :
  exec (onClick_of (ui w)) w = exec (step Click) w.
Proof.
  unfold exec, step, onClick, onClick_of, bind, gets. cbn [fst snd].
  destruct (negb (truthy (trim (prompt (ui w)))) || isLoading (ui w));
    reflexivity.
Qed.

Lemma onClick_of_accepted (r : ReactState) (w : World) :
  trim (prompt r) <> [] -> isLoading r = false ->
  exec (onClick_of r) w =
  {| ui := {| prompt := prompt (ui w); response := empty;
              isLoading := true; displayText := empty |};
     chatManager :=
       {| description := description (chatManager w);
          messages := messages (chatManager w)
                      ++ [{| turn_role := user; turn_text := prompt r |}];
          requests := S (requests (chatManager w)) |};
     awaiting := awaiting w ++ [requests (chatManager w)];
     intervals := intervals w;
     nextIntervalId := nextIntervalId w;
     trace := trace w ++ [ESetIsLoading true; ESetResponse empty;
                          ESetDisplayText empty;
                          EAddMessage user (prompt r);
                          EGetCharacterResponse (lit "classify")
                            (requests (chatManager w))] |}.
Proof.
  intros Hp Hl. unfold onClick_of.
  destruct (trim (prompt r)) as [|c t] eqn:E; [now elim Hp|].
  rewrite Hl. cbn [truthy negb orb].
  unfold exec, bind. cbn. rewrite <- !app_assoc. reflexivity.
Qed.

Lemma onClick_of_ignored (r : ReactState) (w : World) :
  trim (prompt r) = [] \/ isLoading r = true ->
  exec (onClick_of r) w = w.
Proof.
  intros H. unfold onClick_of.
  assert (G : negb (truthy (trim (prompt r))) || isLoading r = true).
  { rewrite orb_true_iff, negb_true_iff, truthy_false_iff. exact H. }
  rewrite G. reflexivity.
Qed.

(** C3, as the code has it: a submit is ignored exactly when the trimmed
    prompt is empty or the [isLoading] its handler reads is true, be
    these the cells or the constants of an older render.  An
    accepted submit sets [isLoading] to true and suspends on its request;
    when a request settles, [isLoading] is set to false at once.  On a
    reply the reveal timer has then only been started, with its counter at
    0 and nothing of the reply displayed yet, so submits are accepted
    again from the first moment of the reveal. *)
Theorem submit_accepted_iff_not_loading (w : World) :
  (exec (step Click) w = w
   <-> trim (prompt (ui w)) = [] \/ isLoading (ui w) = true)
  /\ (trim (prompt (ui w)) <> [] /\ isLoading (ui w) = false ->
      isLoading (ui (exec (step Click) w)) = true
      /\ In (requests (chatManager w)) (awaiting (exec (step Click) w)))
  /\ (forall p o, In p (awaiting w) ->
        isLoading (ui (exec (step (Settle p o)) w)) = false)
  /\ (forall p R, In p (awaiting w) ->
        In {| intervalId := nextIntervalId w; result := R; i := 0; delay := 30 |}
           (intervals (exec (step (Settle p (Fulfilled R))) w))
        /\ displayText (ui (exec (step (Settle p (Fulfilled R))) w))
           = displayText (ui w))
  /\ (forall r, exec (onClick_of r) w = w
                <-> trim (prompt r) = [] \/ isLoading r = true).
Proof.
  split; [|split; [|split; [|split]]].
  - split.
    + intros E. destruct (onClick_dec w) as [Hg|[Hp Hl]]; [exact Hg|].
      exfalso. exact (onClick_accepted_changes w Hp Hl E).
    + apply onClick_ignored.
  - intros [Hp Hl]. rewrite (onClick_accepted w Hp Hl).
    cbn [ui isLoading awaiting]. split; [reflexivity|].
    apply in_or_app. right. now left.
  - intros p o Hin. apply in_existsb in Hin.
    destruct o; [rewrite (settle_fulfilled w p _ Hin)
                | rewrite (settle_rejected w p _ Hin)]; reflexivity.
  - intros p R Hin. apply in_existsb in Hin.
    rewrite (settle_fulfilled w p _ Hin). cbn [intervals ui displayText].
    split; [|reflexivity].
    apply in_or_app. right. now left.
  - intros r. split; [|apply onClick_of_ignored].
    intros E.
    destruct (trim (prompt r)) as [|c t] eqn:Et; [now left|].
    destruct (isLoading r) eqn:El; [now right|]. exfalso.
    rewrite onClick_of_accepted in E; [|rewrite Et; discriminate|exact El].
    apply (f_equal (fun x => List.length (trace x))) in E.
    cbn in E. rewrite length_app in E. cbn in E. lia.
Qed.

Lemma reveal_in_progress_reachable : reachable reveal_in_progress.
Proof. eexists. reflexivity. Qed.

(** C3 as stated fails: with the reply [abc] stored and only [a] shown,
    the first timer still scheduled, [isLoading] is already false and a
    submit is accepted: it issues a second engine request. *)
Lemma submit_accepted_during_reveal :
  revealing reveal_in_progress = true
  /\ isLoading (ui reveal_in_progress) = false
  /\ find_interval 0 (intervals reveal_in_progress)
     = Some {| intervalId := 0; result := lit "abc"; i := 2; delay := 30 |}
  /\ request_count (trace reveal_in_progress) = 1
  /\ request_count (trace (exec (step Click) reveal_in_progress)) = 2
  /\ ~ (forall w, reachable w -> revealing w = true ->
                  exec (step Click) w = w).
Proof.
  repeat split; try reflexivity.
  intros H.
  specialize (H reveal_in_progress reveal_in_progress_reachable eq_refl).
  apply (f_equal (fun x => request_count (trace x))) in H.
  vm_compute in H. discriminate.
Qed.

(* ------------------------------------------------------------------ *)
(** ** Timers are cancelled only by their own callback *)

Lemma interval_survives (ev : Event) (w : World) (t : Interval) :
  In t (intervals w) ->
  (exists t', In t' (intervals (exec (step ev) w))
              /\ intervalId t' = intervalId t /\ result t' = result t)
  \/ (ev = Tick (intervalId t)
      /\ exists t0, find_interval (intervalId t) (intervals w) = Some t0
                    /\ (JS.length (result t0) < i t0)%Z).
Proof.
  intros Hin.
  step_cases ev w; cbn [intervals];
    try (left; exists t; repeat split; assumption).
  - (* reply: a timer is added at the end *)
    left. exists t. repeat split. apply in_or_app. now left.
  - (* tick, below the end: counters move, timers stay *)
    left.
    exists (if Nat.eqb (intervalId t) (intervalId t0)
            then {| intervalId := intervalId t; result := result t;
                    i := i t + 1; delay := delay t |}
            else t).
    split.
    + apply (in_map (fun t' =>
               if Nat.eqb (intervalId t') (intervalId t0)
               then {| intervalId := intervalId t'; result := result t';
                       i := i t' + 1; delay := delay t' |}
               else t') _ _ Hin).
    + destruct (Nat.eqb (intervalId t) (intervalId t0)); split; reflexivity.
  - (* tick, past the end: the timer clears itself *)
    destruct (find_interval_id _ _ _ Hfind) as [Hid _].
    destruct (Nat.eqb (intervalId t) (intervalId t0)) eqn:E.
    + right. apply Nat.eqb_eq in E. rewrite E, Hid. split; [reflexivity|].
      exists t0. split; [exact Hfind | lia].
    + left. exists t. repeat split. apply filter_In. split; [exact Hin|].
      now rewrite E.
Qed.

(** C4, as the code has it: an accepted submit sets [response] and
    [displayText] to the empty string before it requests a reply, and
    leaves every timer scheduled; so does the cleanup run on unmount.  A
    timer is removed only by its own callback, on the tick at which its
    counter has passed the length of its reply; until then each of its
    ticks, after a new submit as well, writes the next prefix of its own
    reply to [displayText]. *)
Theorem submit_resets_display_and_keeps_timers (w : World) :
  trim (prompt (ui w)) <> [] -> isLoading (ui w) = false ->
  let w' := exec (step Click) w in
  response (ui w') = empty
  /\ displayText (ui w') = empty
  /\ trace w' = trace w ++ [ESetIsLoading true; ESetResponse empty;
                            ESetDisplayText empty;
                            EAddMessage user (prompt (ui w));
                            EGetCharacterResponse (lit "classify")
                              (requests (chatManager w))]
  /\ intervals w' = intervals w
  /\ intervals (exec (step Unmount) w) = intervals w
  /\ (forall id t, find_interval id (intervals w) = Some t ->
        (i t <= JS.length (result t))%Z ->
        displayText (ui (exec (step (Tick id)) w')) = slice (result t) 0 (i t))
  /\ (forall ev t, In t (intervals w) ->
        (exists t', In t' (intervals (exec (step ev) w))
                    /\ intervalId t' = intervalId t /\ result t' = result t)
        \/ (ev = Tick (intervalId t)
            /\ exists t0, find_interval (intervalId t) (intervals w) = Some t0
                          /\ (JS.length (result t0) < i t0)%Z)).
Proof.
  intros Hp Hl w'. subst w'.
  pose proof (onClick_accepted w Hp Hl) as E.
  assert (Hint : intervals (exec (step Click) w) = intervals w)
    by (rewrite E; reflexivity).
  split; [rewrite E; reflexivity|].
  split; [rewrite E; reflexivity|].
  split; [rewrite E; reflexivity|].
  split; [exact Hint|].
  split; [rewrite unmount_exec; reflexivity|].
  split.
  - intros id t Hf Hi. rewrite <- Hint in Hf.
    rewrite (tick_reveal (exec (step Click) w) id t Hf Hi). reflexivity.
  - intros ev t. apply interval_survives.
Qed.

Lemma submit_resets_display_and_keeps_timers_witness :
  displayText (ui resubmitted) = empty
  /\ intervals resubmitted = intervals reveal_in_progress.
Proof.
  pose proof (submit_resets_display_and_keeps_timers reveal_in_progress) as H.
  cbv zeta in H.
  destruct H as (_ & Hd & _ & Hi & _); [discriminate | reflexivity |].
  split; [exact Hd | exact Hi].
Defined.

(** C4 as stated fails: after a submit pressed during the reveal of
    [abc], the first timer is still scheduled, its next tick makes
    [displayText] grow from the old reply, and unmounting leaves it
    scheduled too. *)
Lemma old_timer_outlives_resubmission :
  displayText (ui reveal_in_progress) = lit "a"
  /\ displayText (ui resubmitted) = empty
  /\ find_interval 0 (intervals resubmitted)
     = Some {| intervalId := 0; result := lit "abc"; i := 2; delay := 30 |}
  /\ displayText (ui (exec (step (Tick 0)) resubmitted)) = lit "ab"
  /\ find_interval 0 (intervals (exec (step Unmount) reveal_in_progress))
     = Some {| intervalId := 0; result := lit "abc"; i := 2; delay := 30 |}
  /\ ~ (forall w, reachable w ->
          trim (prompt (ui w)) <> [] -> isLoading (ui w) = false ->
          intervals (exec (step Click) w) = []
          /\ intervals (exec (step Unmount) w) = []).
Proof.
  repeat split; try reflexivity.
  intros H.
  destruct (H reveal_in_progress reveal_in_progress_reachable) as [H1 _];
    [discriminate | reflexivity |].
  vm_compute in H1. discriminate.
Qed.

(* ------------------------------------------------------------------ *)
(** ** The reveal *)

Lemma bump_zero (id : nat) (t : Interval) : bump id 0 t = t.
Proof.
  unfold bump. destruct (Nat.eqb (intervalId t) id); [|reflexivity].
  destruct t; cbn. f_equal. lia.
Qed.

Lemma bump_bump (id : nat) (n m : Z) (t : Interval) :
  bump id m (bump id n t) = bump id (n + m) t.
Proof.
  unfold bump. destruct (Nat.eqb (intervalId t) id) eqn:E; cbn.
  - rewrite E. f_equal. lia.
  - now rewrite E.
Qed.

Lemma find_interval_bump (id : nat) (n : Z) (l : list Interval) :
  find_interval id (map (bump id n) l)
  = option_map (bump id n) (find_interval id l).
Proof.
  induction l as [|h l IH]; [reflexivity|].
  cbn. unfold bump at 1.
  destruct (Nat.eqb (intervalId h) id) eqn:E; cbn; rewrite E.
  - unfold bump. now rewrite E.
  - exact IH.
Qed.

Lemma find_interval_cleared (id : nat) (l : list Interval) :
  find_interval id (filter (fun t => negb (Nat.eqb (intervalId t) id)) l) = None.
Proof.
  induction l as [|h l IH]; [reflexivity|].
  cbn. destruct (Nat.eqb (intervalId h) id) eqn:E; cbn; [exact IH|].
  now rewrite E.
Qed.

(** [k] consecutive ticks of a timer whose counter stays within its reply:
    each writes the next prefix, nothing else moves. *)
Lemma ticks_reveal (w : World) (id : nat) (t : Interval) (k : nat) :
  find_interval id (intervals w) = Some t ->
  (0 <= i t)%Z ->
  (i t + Z.of_nat k <= JS.length (result t) + 1)%Z ->
  let w' := run (repeat (Tick id) k) w in
  intervals w' = map (bump id (Z.of_nat k)) (intervals w)
  /\ trace w' = trace w
                ++ map (fun j => ESetDisplayText
                                   (firstn (Z.to_nat (i t) + j) (result t)))
                       (seq 0 k)
  /\ (1 <= k -> displayText (ui w')
                = firstn (Z.to_nat (i t) + k - 1) (result t))
  /\ same_but_reveal w w'.
Proof.
  intros Hf H0. induction k as [|k IH]; intros Hk w'; subst w'.
  - cbn [repeat run fold_left seq map]. repeat split.
    + rewrite (map_ext _ (fun x => x)) by (intros; apply bump_zero).
      now rewrite map_id.
    + now rewrite app_nil_r.
    + lia.
  - destruct IH as (Hint & Htr & Hdt & Hsame); [lia|].
    change (repeat (Tick id) (S k)) with (Tick id :: repeat (Tick id) k).
    rewrite repeat_cons, run_app.
    set (wk := run (repeat (Tick id) k) w) in *.
    assert (Hfk : find_interval id (intervals wk) = Some (bump id (Z.of_nat k) t)).
    { rewrite Hint, find_interval_bump, Hf. reflexivity. }
    destruct (find_interval_id _ _ _ Hf) as [Hid _].
    assert (Hbi : i (bump id (Z.of_nat k) t) = (i t + Z.of_nat k)%Z).
    { unfold bump. rewrite Hid, Nat.eqb_refl. reflexivity. }
    assert (Hbr : result (bump id (Z.of_nat k) t) = result t).
    { unfold bump. rewrite Hid, Nat.eqb_refl. reflexivity. }
    assert (Hbid : intervalId (bump id (Z.of_nat k) t) = id).
    { unfold bump. rewrite Hid, Nat.eqb_refl. reflexivity. }
    cbn [run fold_left].
    rewrite (tick_reveal wk id _ Hfk) by (rewrite Hbi, Hbr; lia).
    rewrite Hbi, Hbr, Hbid.
    rewrite slice_prefix by lia.
    replace (Z.to_nat (i t + Z.of_nat k)) with (Z.to_nat (i t) + k) by lia.
    cbn [intervals trace ui displayText].
    split; [|split; [|split]].
    + rewrite Hint, map_map.
      apply map_ext. intros a.
      change (bump id 1 (bump id (Z.of_nat k) a) = bump id (Z.of_nat (S k)) a).
      rewrite bump_bump. f_equal. lia.
    + rewrite Htr, seq_S, map_app, <- app_assoc. reflexivity.
    + intros _. f_equal. lia.
    + destruct Hsame as (H1 & H2 & H3 & H4 & H5 & H6).
      unfold same_but_reveal. cbn. repeat split; assumption.
Qed.

Lemma ticks_none (w : World) (id : nat) (k : nat) :
  find_interval id (intervals w) = None ->
  run (repeat (Tick id) k) w = w.
Proof.
  intros Hf. induction k as [|k IH]; [reflexivity|].
  cbn [repeat]. rewrite run_cons, (tick_none w id Hf). exact IH.
Qed.

Lemma reveal_done_step (R : jsstring) (ev : Event) (w : World) :
  reveal_done R w -> is_click ev = false -> reveal_done R (exec (step ev) w).
Proof.
  intros (Hd & Ha & Hall) Hc. unfold reveal_done.
  step_cases ev w; try discriminate Hc;
    cbn [ui displayText awaiting intervals];
    try (repeat split; assumption);
    try (rewrite Ha in Hawait; discriminate Hawait).
  - (* a tick below the end of its reply: no such timer is left *)
    destruct (find_interval_id _ _ _ Hfind) as [_ Hin].
    rewrite Forall_forall in Hall. specialize (Hall t Hin). lia.
  - (* a tick past the end: the timer clears itself *)
    repeat split; try assumption.
    apply Forall_forall. intros x Hx. apply filter_In in Hx.
    rewrite Forall_forall in Hall. now apply Hall.
Qed.

Lemma reveal_done_run (R : jsstring) (evs : list Event) (w : World) :
  reveal_done R w ->
  forallb (fun ev => negb (is_click ev)) evs = true ->
  reveal_done R (run evs w).
Proof.
  revert w. induction evs as [|ev evs IH]; intros w Hd Hev; [exact Hd|].
  cbn [forallb] in Hev. apply andb_true_iff in Hev. destruct Hev as [H1 H2].
  rewrite run_cons. apply IH; [|exact H2].
  apply reveal_done_step; [exact Hd | now apply negb_true_iff].
Qed.

Lemma reveal_writes_none (R : jsstring) (k : nat) : reveal_writes R k 0 = [].
Proof.
  unfold reveal_writes.
  replace (Nat.min (k + 0) (List.length R + 1) - k) with 0 by lia.
  reflexivity.
Qed.

Lemma reveal_writes_more (R : jsstring) (k c0 c : nat) :
  c0 <= 1 ->
  reveal_writes R k c0 ++ reveal_writes R (k + c0) c
  = reveal_writes R k (c0 + c).
Proof.
  intros Hc0. unfold reveal_writes. rewrite <- map_app. f_equal.
  destruct c0 as [|[|c0]]; [| |lia].
  - replace (Nat.min (k + 0) (List.length R + 1) - k) with 0 by lia.
    cbn [seq app]. now rewrite Nat.add_0_r.
  - destruct (Nat.leb_spec k (List.length R)) as [Hle|Hgt].
    + replace (Nat.min (k + 1) (List.length R + 1) - k) with 1 by lia.
      replace (Nat.min (k + (1 + c)) (List.length R + 1) - k)
        with (S (Nat.min (k + 1 + c) (List.length R + 1) - (k + 1))) by lia.
      cbn [seq app]. now rewrite Nat.add_1_r.
    + replace (Nat.min (k + 1) (List.length R + 1) - k) with 0 by lia.
      replace (Nat.min (k + 1 + c) (List.length R + 1) - (k + 1)) with 0 by lia.
      replace (Nat.min (k + (1 + c)) (List.length R + 1) - k) with 0 by lia.
      reflexivity.
Qed.

(** One event other than a submit, during or after a reveal running
    alone: only a firing of the timer moves it on. *)
Lemma revealing_at_step (tid : nat) (R : jsstring) (k : nat)
  (ev : Event) (w : World) :
  revealing_at tid R k w -> is_click ev = false ->
  let c := if is_tick tid ev then 1 else 0 in
  revealing_at tid R (k + c) (exec (step ev) w)
  /\ display_writes (trace (exec (step ev) w))
     = display_writes (trace w) ++ reveal_writes R k c.
Proof.
  intros (Ha & Hi & Hd) Hc. unfold revealing_at, display_writes.
  step_cases ev w; try discriminate Hc;
    cbn [is_tick];
    cbn [ui displayText awaiting intervals trace];
    rewrite ?filter_app; cbn [filter is_setDisplayText];
    try (rewrite Ha in Hawait; discriminate Hawait).
  - (* the input is edited *)
    rewrite Nat.add_0_r, reveal_writes_none. repeat split; assumption.
  - (* a promise nobody waits for *)
    rewrite Nat.add_0_r, reveal_writes_none, app_nil_r.
    repeat split; assumption.
  - (* the timer fires below the end of the reply *)
    rewrite Hi in Hfind.
    destruct (Nat.leb k (List.length R + 1)) eqn:Hk; [|discriminate Hfind].
    cbn in Hfind. destruct (Nat.eqb tid id) eqn:E; [|discriminate Hfind].
    apply Nat.eqb_eq in E. subst id. injection Hfind as <-.
    cbn [i result intervalId] in *. unfold JS.length in Hi0.
    rewrite Nat.eqb_refl. rewrite Hi. cbn [map intervalId].
    rewrite Nat.eqb_refl. cbn [intervalId result i delay].
    assert (Hk1 : Nat.leb (k + 1) (List.length R + 1) = true)
      by (apply Nat.leb_le; lia).
    rewrite Hk1, slice_prefix by lia. rewrite Nat2Z.id.
    repeat split; try assumption.
    + do 2 f_equal. lia.
    + intros _. f_equal. lia.
    + unfold reveal_writes.
      replace (Nat.min (k + 1) (List.length R + 1) - k) with 1 by lia.
      reflexivity.
  - (* the timer fires past the end of the reply *)
    rewrite Hi in Hfind.
    destruct (Nat.leb k (List.length R + 1)) eqn:Hk; [|discriminate Hfind].
    cbn in Hfind. destruct (Nat.eqb tid id) eqn:E; [|discriminate Hfind].
    apply Nat.eqb_eq in E. subst id. injection Hfind as <-.
    cbn [i result intervalId] in *. unfold JS.length in Hi0.
    apply Nat.leb_le in Hk.
    rewrite Hi. cbn [filter intervalId]. rewrite Nat.eqb_refl. cbn [negb].
    assert (Hk1 : Nat.leb (k + 1) (List.length R + 1) = false)
      by (apply Nat.leb_gt; lia).
    rewrite Hk1.
    repeat split; try assumption.
    + intros _. rewrite Hd by lia. f_equal. lia.
    + unfold reveal_writes.
      replace (Nat.min (k + 1) (List.length R + 1) - k) with 0 by lia.
      now rewrite !app_nil_r.
  - (* a firing of a timer that is not scheduled *)
    destruct (Nat.eqb id tid) eqn:E.
    + apply Nat.eqb_eq in E. subst id.
      rewrite Hi in Hfind.
      destruct (Nat.leb k (List.length R + 1)) eqn:Hk.
      * cbn in Hfind. rewrite Nat.eqb_refl in Hfind. discriminate Hfind.
      * apply Nat.leb_gt in Hk.
        assert (Hk1 : Nat.leb (k + 1) (List.length R + 1) = false)
          by (apply Nat.leb_gt; lia).
        rewrite Hk1.
        unfold reveal_writes.
        replace (Nat.min (k + 1) (List.length R + 1) - k) with 0 by lia.
        cbn [map]. rewrite app_nil_r. repeat split; try assumption.
        intros _. rewrite Hd by lia. f_equal. lia.
    + rewrite Nat.add_0_r, reveal_writes_none, app_nil_r.
      repeat split; assumption.
  - (* teardown *)
    rewrite Nat.add_0_r, reveal_writes_none, app_nil_r.
    repeat split; assumption.
Qed.

Lemma revealing_at_run (tid : nat) (R : jsstring) (evs : list Event) :
  forall k w,
  revealing_at tid R k w ->
  forallb (fun ev => negb (is_click ev)) evs = true ->
  revealing_at tid R (k + count_ticks tid evs) (run evs w)
  /\ display_writes (trace (run evs w))
     = display_writes (trace w) ++ reveal_writes R k (count_ticks tid evs).
Proof.
  induction evs as [|ev evs IH]; intros k w Hr Hev.
  - cbn [run fold_left]. unfold count_ticks. cbn [filter List.length].
    rewrite Nat.add_0_r, reveal_writes_none, app_nil_r. split; [exact Hr|reflexivity].
  - cbn [forallb] in Hev. apply andb_true_iff in Hev. destruct Hev as [H1 H2].
    apply negb_true_iff in H1.
    destruct (revealing_at_step tid R k ev w Hr H1) as [Hr1 Hw1].
    destruct (IH _ _ Hr1 H2) as [Hr2 Hw2].
    rewrite run_cons.
    assert (Hc : count_ticks tid (ev :: evs)
                 = (if is_tick tid ev then 1 else 0) + count_ticks tid evs).
    { unfold count_ticks. cbn [filter].
      destruct (is_tick tid ev); reflexivity. }
    rewrite Hc. split.
    + now rewrite Nat.add_assoc.
    + rewrite Hw2, Hw1, <- app_assoc. f_equal.
      apply reveal_writes_more. destruct (is_tick tid ev); lia.
Qed.

Section Reveal.

Variable w : World.
Variable p : nat.
Variable R : jsstring.
Hypothesis only_request : awaiting w = [p].
Hypothesis no_earlier_timer : intervals w = [].

Let N : nat := List.length R.
Let tid : nat := nextIntervalId w.
Let timer0 : Interval :=
  {| intervalId := tid; result := R; i := 0; delay := 30 |}.
Let w1 : World := exec (step (Settle p (Fulfilled R))) w.
Let after (k : nat) : World := run (repeat (Tick tid) k) w1.

Lemma reveal_start :
  intervals w1 = [timer0] /\ awaiting w1 = []
  /\ isLoading (ui w1) = false /\ response (ui w1) = R
  /\ prompt (ui w1) = prompt (ui w).
Proof.
  assert (Hp : existsb (Nat.eqb p) (awaiting w) = true).
  { rewrite only_request. cbn. now rewrite Nat.eqb_refl. }
  unfold w1. rewrite (settle_fulfilled w p R Hp).
  cbn [intervals awaiting ui isLoading response prompt].
  rewrite no_earlier_timer, only_request. cbn. rewrite Nat.eqb_refl.
  repeat split.
Qed.

Lemma reveal_find : find_interval tid (intervals w1) = Some timer0.
Proof.
  destruct reveal_start as [-> _]. cbn. now rewrite Nat.eqb_refl.
Qed.

Lemma reveal_ticks (k : nat) :
  k <= N + 1 ->
  intervals (after k)
  = [{| intervalId := tid; result := R; i := Z.of_nat k; delay := 30 |}]
  /\ trace (after k)
     = trace w1 ++ map (fun j => ESetDisplayText (firstn j R)) (seq 0 k)
  /\ (1 <= k -> displayText (ui (after k)) = firstn (k - 1) R)
  /\ same_but_reveal w1 (after k).
Proof.
  intros Hk.
  destruct (ticks_reveal w1 tid timer0 k reveal_find) as (Hi & Ht & Hd & Hs).
  - cbn. lia.
  - cbn [i result timer0]. unfold JS.length. fold N. lia.
  - fold (after k) in Hi, Ht, Hd, Hs. repeat split.
    + rewrite Hi. destruct reveal_start as [-> _].
      cbn. unfold bump. cbn. now rewrite Nat.eqb_refl.
    + exact Ht.
    + intros H1. rewrite (Hd H1). cbn. reflexivity.
    + apply Hs.
    + apply Hs.
    + apply Hs.
    + apply Hs.
    + apply Hs.
    + apply Hs.
Qed.

Lemma reveal_complete : reveal_done R (after (N + 1)).
Proof.
  destruct (reveal_ticks (N + 1) (le_n _)) as (Hi & _ & Hd & Hs).
  destruct reveal_start as (_ & Ha & _).
  repeat split.
  - rewrite Hd by lia. replace (N + 1 - 1) with N by lia. apply firstn_all.
  - destruct Hs as (_ & _ & _ & _ & -> & _). exact Ha.
  - rewrite Hi. constructor; [|constructor]. cbn. unfold JS.length. fold N. lia.
Qed.

Lemma reveal_cleared (k : nat) :
  N + 2 <= k ->
  intervals (after k) = []
  /\ trace (after k)
     = trace w1 ++ map (fun j => ESetDisplayText (firstn j R)) (seq 0 (N + 1))
       ++ [EClearInterval tid]
  /\ displayText (ui (after k)) = R.
Proof.
  intros Hk.
  destruct (reveal_ticks (N + 1) (le_n _)) as (Hi & Ht & _ & _).
  destruct reveal_complete as (Hd & _ & _).
  assert (Hf : find_interval tid (intervals (after (N + 1)))
               = Some {| intervalId := tid; result := R;
                         i := Z.of_nat (N + 1); delay := 30 |}).
  { rewrite Hi. cbn. now rewrite Nat.eqb_refl. }
  assert (Hlt : (JS.length R < Z.of_nat (N + 1))%Z)
    by (unfold JS.length; fold N; lia).
  pose proof (tick_clear (after (N + 1)) tid _ Hf Hlt) as Hc.
  cbn [intervalId] in Hc.
  set (wc := exec (step (Tick tid)) (after (N + 1))) in *.
  assert (Hnone : find_interval tid (intervals wc) = None).
  { rewrite Hc. cbn [intervals]. apply find_interval_cleared. }
  assert (E : after k = wc).
  { unfold after. replace k with ((N + 1) + S (k - (N + 2))) by lia.
    rewrite repeat_app, run_app. fold (after (N + 1)).
    cbn [repeat]. rewrite run_cons. fold wc. now apply ticks_none. }
  rewrite E, Hc. cbn [intervals trace ui].
  rewrite Hi, Ht, Hd. cbn. rewrite Nat.eqb_refl. cbn.
  rewrite <- app_assoc. repeat split.
Qed.

Lemma reveal_alone (evs : list Event) :
  forallb (fun ev => negb (is_click ev)) evs = true ->
  revealing_at tid R (count_ticks tid evs) (run evs w1)
  /\ display_writes (trace (run evs w1))
     = display_writes (trace w1) ++ reveal_writes R 0 (count_ticks tid evs).
Proof.
  intros Hev.
  assert (H0 : revealing_at tid R 0 w1).
  { destruct reveal_start as (Hi & Ha & _).
    unfold revealing_at. rewrite Hi, Ha. cbn [Nat.leb].
    split; [reflexivity|]. split; [reflexivity|]. lia. }
  exact (revealing_at_run tid R evs 0 w1 H0 Hev).
Qed.

(** C5, as the code has it: take a reply [R] of length [N] whose reveal
    starts with no timer of an earlier reveal still scheduled and no other
    request outstanding.  Its timer, of period 30, writes on its first
    [N+1] firings the prefixes of [R] of lengths 0, 1, ..., [N], one per
    firing, so [displayText] grows by one code unit per firing from the
    empty string to [R]; on the next firing it clears itself and writes
    nothing more.  This holds whatever else happens as long as no submit
    is made: after [k] firings in any such run, the [setDisplayText] calls
    made are exactly the first [min k (N+1)] prefixes, in order.  From the
    firing that shows [R] on, [displayText] stays [R] until a submit, and
    an accepted submit sets it back to the empty string. *)
Theorem reveal_shows_each_prefix_once :
  intervals w1 = [{| intervalId := tid; result := R; i := 0; delay := 30 |}]
  /\ (forall k, k <= N + 1 ->
        trace (after k)
        = trace w1 ++ map (fun j => ESetDisplayText (firstn j R)) (seq 0 k))
  /\ (forall k, 1 <= k <= N + 1 ->
        displayText (ui (after k)) = firstn (k - 1) R
        /\ List.length (displayText (ui (after k))) = k - 1)
  /\ displayText (ui (after (N + 1))) = R
  /\ (forall k, N + 2 <= k ->
        intervals (after k) = []
        /\ trace (after k)
           = trace w1
             ++ map (fun j => ESetDisplayText (firstn j R)) (seq 0 (N + 1))
             ++ [EClearInterval tid]
        /\ displayText (ui (after k)) = R)
  /\ (forall evs, forallb (fun ev => negb (is_click ev)) evs = true ->
        displayText (ui (run evs (after (N + 1)))) = R)
  /\ (trim (prompt (ui w)) <> [] ->
        displayText (ui (exec (step Click) (after (N + 1)))) = empty)
  /\ (forall evs, forallb (fun ev => negb (is_click ev)) evs = true ->
        let k := count_ticks tid evs in
        display_writes (trace (run evs w1))
        = display_writes (trace w1)
          ++ map (fun j => ESetDisplayText (firstn j R))
                 (seq 0 (Nat.min k (N + 1)))
        /\ (1 <= k ->
            displayText (ui (run evs w1)) = firstn (Nat.min (k - 1) N) R)
        /\ intervals (run evs w1)
           = (if Nat.leb k (N + 1)
              then [{| intervalId := tid; result := R;
                       i := Z.of_nat k; delay := 30 |}]
              else [])
        /\ awaiting (run evs w1) = []).
Proof.
  split; [apply reveal_start|].
  split; [intros k Hk; apply (reveal_ticks k Hk)|].
  split.
  { intros k [H1 Hk]. destruct (reveal_ticks k Hk) as (_ & _ & Hd & _).
    rewrite (Hd H1). split; [reflexivity|].
    apply firstn_length_le. fold N. lia. }
  split; [apply reveal_complete|].
  split; [exact reveal_cleared|].
  split.
  { intros evs Hev. apply (reveal_done_run R evs _ reveal_complete Hev). }
  split.
  { intros Hp.
    destruct (reveal_ticks (N + 1) (le_n _)) as (_ & _ & _ & Hs).
    destruct Hs as (Hs1 & _ & Hs3 & _).
    destruct reveal_start as (_ & _ & Hl & _ & Hpr).
    rewrite onClick_accepted; [reflexivity| |].
    - rewrite Hs1, Hpr. exact Hp.
    - rewrite Hs3. exact Hl. }
  intros evs Hev k.
  destruct (reveal_alone evs Hev) as [(Ha & Hi & Hd) Hw].
  fold k in Ha, Hi, Hd, Hw. fold N in Hi, Hd.
  split.
  { rewrite Hw. unfold reveal_writes. fold N.
    now rewrite Nat.add_0_l, Nat.sub_0_r. }
  split; [exact Hd|]. split; [exact Hi | exact Ha].
Qed.

End Reveal.

Lemma reveal_shows_each_prefix_once_witness :
  displayText
    (ui (run (repeat (Tick 0) 4)
             (exec (step (Settle 0 (Fulfilled (lit "abc"))))
                   (run [Change (lit "hi"); Click] init))))
  = lit "abc".
Proof.
  exact (proj1 (proj2 (proj2 (proj2
    (reveal_shows_each_prefix_once
       (run [Change (lit "hi"); Click] init) 0 (lit "abc")
       eq_refl eq_refl))))).
Defined.

Lemma overlapped_reveals_reachable : reachable overlapped_reveals.
Proof. eexists. reflexivity. Qed.

(** C5 as stated fails: the reply [x] arrived while the timer of the
    earlier reply [abcdef] was still scheduled.  Once [x] is fully shown,
    with no submit in between, the next tick of the earlier timer replaces
    it by [abcd], which is no prefix of [x]: [displayText] is not frozen. *)
Lemma reveal_not_frozen_under_earlier_timer :
  response (ui overlapped_reveals) = lit "x"
  /\ displayText (ui overlapped_reveals) = lit "x"
  /\ awaiting overlapped_reveals = []
  /\ displayText (ui (exec (step (Tick 0)) overlapped_reveals)) = lit "abcd"
  /\ ~ (forall w ev, reachable w ->
          displayText (ui w) = response (ui w) -> is_click ev = false ->
          displayText (ui (exec (step ev) w)) = displayText (ui w)).
Proof.
  repeat split; try reflexivity.
  intros H.
  specialize (H overlapped_reveals (Tick 0) overlapped_reveals_reachable
                eq_refl eq_refl).
  vm_compute in H. discriminate.
Qed.

(* ------------------------------------------------------------------ *)
(** ** A failing engine call *)

Lemma submitting_step (p : nat) (ev : Event) (w : World) :
  submitting p w -> settles p ev = false ->
  submitting p (exec (step ev) w)
  /\ request_count (trace (exec (step ev) w)) = request_count (trace w)
  /\ chatManager (exec (step ev) w) = chatManager w
  /\ (intervals w = [] ->
      intervals (exec (step ev) w) = []
      /\ displayText (ui (exec (step ev) w)) = displayText (ui w)).
Proof.
  intros (Hl & Ha & Hr) Hs. unfold submitting.
  step_cases ev w;
    cbn [ui isLoading awaiting response trace chatManager intervals displayText];
    rewrite ?request_count_app; cbn [request_count filter is_request List.length];
    try (repeat split; first [assumption | lia | reflexivity]).
  - congruence.
  - rewrite Ha in Hawait. apply awaiting_single in Hawait.
    cbn in Hs. destruct Hawait as [-> _]. rewrite Nat.eqb_refl in Hs. discriminate.
  - rewrite Ha in Hawait. apply awaiting_single in Hawait.
    cbn in Hs. destruct Hawait as [-> _]. rewrite Nat.eqb_refl in Hs. discriminate.
  - split; [repeat split; assumption|]. split; [lia|]. split; [reflexivity|].
    intros Hn. rewrite Hn in Hfind. discriminate.
  - split; [repeat split; assumption|]. split; [lia|]. split; [reflexivity|].
    intros Hn. rewrite Hn in Hfind. discriminate.
Qed.

Lemma submitting_run (p : nat) (evs : list Event) (w : World) :
  submitting p w ->
  forallb (fun ev => negb (settles p ev)) evs = true ->
  submitting p (run evs w)
  /\ request_count (trace (run evs w)) = request_count (trace w)
  /\ chatManager (run evs w) = chatManager w
  /\ (intervals w = [] ->
      intervals (run evs w) = []
      /\ displayText (ui (run evs w)) = displayText (ui w)).
Proof.
  revert w. induction evs as [|ev evs IH]; intros w Hsub Hev.
  - cbn [run fold_left]. split; [exact Hsub|]. repeat split; auto.
  - cbn [forallb] in Hev. apply andb_true_iff in Hev. destruct Hev as [H1 H2].
    apply negb_true_iff in H1.
    destruct (submitting_step p ev w Hsub H1) as (S1 & C1 & M1 & I1).
    destruct (IH _ S1 H2) as (S2 & C2 & M2 & I2).
    rewrite run_cons. repeat split; try apply S2; try congruence.
    + destruct (I1 H) as [Hi _]. now destruct (I2 Hi).
    + destruct (I1 H) as [Hi Hd]. destruct (I2 Hi) as [_ Hd2]. congruence.
Qed.




(* ------------------------------------------------------------------ *)
(** ** Invariants over every run of the page *)

Lemma run_invariant (P : World -> Prop) (w0 : World) :
  P w0 ->
  (forall ev w, P w -> P (exec (step ev) w)) ->
  forall evs, P (run evs w0).
Proof.
  intros H0 Hstep evs. revert w0 H0.
  induction evs as [|ev evs IH]; intros w0 H0; [exact H0|].
  rewrite run_cons. apply IH. now apply Hstep.
Qed.

Lemma page_step_rendered (ev : Event) (w : World) :
  page_step Render (page_step (Handle ev) (page_of w))
  = page_of (exec (step ev) w).
Proof.
  destruct ev; unfold page_step, page_of; cbn [world rendered];
    rewrite ?onClick_of_rendered; reflexivity.
Qed.

(** A run in which the component renders after every event is a run of
    [step] on the cells. *)
Lemma page_run_rendered_each (evs : list Event) :
  forall w, page_run (rendered_each evs) (page_of w) = page_of (run evs w).
Proof.
  induction evs as [|ev evs IH]; intros w; [reflexivity|].
  change (rendered_each (ev :: evs))
    with (Handle ev :: Render :: rendered_each evs).
  change (page_run (Handle ev :: Render :: rendered_each evs) (page_of w))
    with (page_run (rendered_each evs)
            (page_step Render (page_step (Handle ev) (page_of w)))).
  rewrite page_step_rendered, IH. reflexivity.
Qed.

(** X1: when the component renders after every event before the next is
    handled, at most one engine request is outstanding at any moment, and
    a click handled while one is outstanding makes no call at all. *)
Theorem never_two_requests_in_flight (evs : list Event) :
  let pg := page_run (rendered_each evs) (page_of init) in
  List.length (awaiting (world pg)) <= 1
  /\ (awaiting (world pg) <> [] -> page_step (Handle Click) pg = pg).
Proof.
  intros pg. subst pg. rewrite page_run_rendered_each.
  cbn [world page_of].
  assert (Inv : loading_invariant (run evs init)).
  { apply loading_invariant_run. right. split; reflexivity. }
  destruct Inv as [[Ht [q Hq]]|[Hf Ha]].
  - rewrite Hq. split; [cbn; lia|]. intros _.
    unfold page_step, page_of. cbn [world rendered].
    rewrite onClick_of_rendered, onClick_ignored; [reflexivity|now right].
  - rewrite Ha. split; [cbn; lia|]. intros H. now elim H.
Qed.

(** X15: two clicks handled with no render in between are both
    accepted when the last render saw [isLoading] false and a prompt that
    is not blank: two requests are outstanding at once and the history
    gains two user turns carrying the rendered prompt; when both requests
    are answered, the two assistant turns follow the two user turns and
    two reveal timers are scheduled. *)
Theorem two_clicks_before_render_start_two_requests
  (pg : Page) (R1 R2 : jsstring) :
  isLoading (rendered pg) = false ->
  trim (prompt (rendered pg)) <> [] ->
  let n := requests (chatManager (world pg)) in
  let p := prompt (rendered pg) in
  let pg2 := page_run [Handle Click; Handle Click] pg in
  let pg4 := page_run [Handle (Settle n (Fulfilled R1));
                       Handle (Settle (S n) (Fulfilled R2))] pg2 in
  awaiting (world pg2) = awaiting (world pg) ++ [n; S n]
  /\ messages (chatManager (world pg2))
     = messages (chatManager (world pg))
       ++ [{| turn_role := user; turn_text := p |};
           {| turn_role := user; turn_text := p |}]
  /\ request_count (trace (world pg2))
     = 2 + request_count (trace (world pg))
  /\ messages (chatManager (world pg4))
     = messages (chatManager (world pg))
       ++ [{| turn_role := user; turn_text := p |};
           {| turn_role := user; turn_text := p |};
           {| turn_role := assistant; turn_text := R1 |};
           {| turn_role := assistant; turn_text := R2 |}]
  /\ intervals (world pg4)
     = intervals (world pg)
       ++ [{| intervalId := nextIntervalId (world pg); result := R1;
              i := 0; delay := 30 |};
           {| intervalId := S (nextIntervalId (world pg)); result := R2;
              i := 0; delay := 30 |}].
Proof.
  intros Hl Hp n p pg2 pg4.
  destruct pg as [w r]. cbn [world rendered] in *.
  assert (E2 : world pg2
               = exec (onClick_of r) (exec (onClick_of r) w)) by reflexivity.
  rewrite (onClick_of_accepted r w Hp Hl) in E2.
  rewrite (onClick_of_accepted r _ Hp Hl) in E2.
  cbn [ui chatManager messages requests awaiting intervals nextIntervalId
       trace description prompt] in E2.
  fold n p in E2.
  assert (H1 : existsb (Nat.eqb n) (awaiting (world pg2)) = true).
  { rewrite E2. cbn [awaiting]. apply in_existsb.
    apply in_or_app. left. apply in_or_app. right. now left. }
  assert (E3 : world (page_step (Handle (Settle n (Fulfilled R1))) pg2)
               = exec (step (Settle n (Fulfilled R1))) (world pg2))
    by reflexivity.
  rewrite (settle_fulfilled _ n R1 H1) in E3.
  assert (H2 : existsb (Nat.eqb (S n))
                 (awaiting (world (page_step (Handle (Settle n (Fulfilled R1)))
                                             pg2))) = true).
  { rewrite E3, E2. cbn [awaiting]. apply in_existsb.
    apply filter_In. split.
    - apply in_or_app. right. now left.
    - apply negb_true_iff, Nat.eqb_neq. lia. }
  assert (E4 : world pg4
               = exec (step (Settle (S n) (Fulfilled R2)))
                      (world (page_step (Handle (Settle n (Fulfilled R1)))
                                        pg2))) by reflexivity.
  rewrite (settle_fulfilled _ (S n) R2 H2) in E4.
  rewrite E3 in E4.
  cbn [ui chatManager messages requests awaiting intervals nextIntervalId
       trace description] in E4.
  rewrite E4, E2.
  cbn [ui chatManager messages requests awaiting intervals nextIntervalId
       trace description].
  rewrite <- !app_assoc. cbn [app].
  repeat split.
  rewrite !request_count_app. cbn. lia.
Qed.

Lemma two_clicks_before_render_start_two_requests_witness :
  awaiting
    (world (page_run [Handle Click; Handle Click]
                     (page_of (run [Change (lit "hi")] init))))
  = [0; 1].
Proof.
  assert (A1 : isLoading (rendered (page_of (run [Change (lit "hi")] init)))
               = false) by reflexivity.
  assert (A2 : trim (prompt (rendered (page_of (run [Change (lit "hi")] init))))
               <> []) by (vm_compute; discriminate).
  pose proof (two_clicks_before_render_start_two_requests
                (page_of (run [Change (lit "hi")] init)) [] [] A1 A2) as H.
  cbv zeta in H. destruct H as (H & _).
  exact H.
Defined.

Lemma reply_ok_step (ev : Event) (w : World) :
  reply_ok w -> reply_ok (exec (step ev) w).
Proof.
  intros [H1 H2]. unfold reply_ok.
  step_cases ev w; cbn [ui isLoading response chatManager messages];
    try (split; assumption).
  - split; [reflexivity | now left].
  - split; [discriminate|]. right. eexists. reflexivity.
  - split; [discriminate | exact H2].
Qed.

Lemma reply_ok_run (evs : list Event) : reply_ok (run evs init).
Proof.
  apply run_invariant; [|exact reply_ok_step].
  split; [reflexivity | now left].
Qed.

(** X2: while [isLoading] is true the stored reply is empty, so the
    output region is not rendered: the previous answer is hidden from the
    moment a submit is accepted until its request settles. *)
Theorem answer_hidden_while_loading (evs : list Event) :
  isLoading (ui (run evs init)) = true ->
  response (ui (run evs init)) = empty
  /\ outputRegion (run evs init) = None.
Proof.
  intros Hl. destruct (reply_ok_run evs) as [H _].
  specialize (H Hl). unfold outputRegion. rewrite H. split; reflexivity.
Qed.

Lemma answer_hidden_while_loading_witness :
  outputRegion
    (run [Change (lit "hi"); Click; Settle 0 (Fulfilled (lit "abc"));
          Tick 0; Tick 0; Click] init) = None.
Proof.
  apply (answer_hidden_while_loading
           [Change (lit "hi"); Click; Settle 0 (Fulfilled (lit "abc"));
            Tick 0; Tick 0; Click]).
  reflexivity.
Defined.

(** X3: the stored reply, when not empty, is the text of the last turn
    of the engine history, which is an assistant turn: the page never
    keeps a reply that a later turn has superseded. *)
Theorem stored_reply_is_last_turn (evs : list Event) :
  response (ui (run evs init)) <> empty ->
  exists h, messages (chatManager (run evs init))
            = h ++ [{| turn_role := assistant;
                       turn_text := response (ui (run evs init)) |}].
Proof.
  intros Hne. destruct (reply_ok_run evs) as [_ [H|H]]; [contradiction|exact H].
Qed.

Lemma stored_reply_is_last_turn_witness :
  exists h, messages (chatManager reveal_in_progress)
            = h ++ [{| turn_role := assistant; turn_text := lit "abc" |}].
Proof.
  apply (stored_reply_is_last_turn
           [Change (lit "hi"); Click; Settle 0 (Fulfilled (lit "abc"));
            Tick 0; Tick 0]).
  discriminate.
Defined.

Lemma requests_ok_step (ev : Event) (w : World) :
  requests_ok w -> requests_ok (exec (step ev) w).
Proof.
  intros [H1 H2]. unfold requests_ok.
  step_cases ev w; cbn [chatManager messages requests trace];
    rewrite ?filter_app, ?length_app, ?request_count_app;
    cbn [filter is_user turn_role is_request request_count List.length];
    split; lia.
Qed.

(** X4: in every run the engine has been asked for a reply exactly once
    per user turn in its history: the number of user turns, the engine's
    count of requests and the number of [getCharacterResponse] calls made
    by the page are the same. *)
Theorem one_request_per_user_turn (evs : list Event) :
  List.length (filter is_user (messages (chatManager (run evs init))))
  = request_count (trace (run evs init))
  /\ request_count (trace (run evs init))
     = requests (chatManager (run evs init)).
Proof.
  assert (H : requests_ok (run evs init)).
  { apply run_invariant; [|exact requests_ok_step]. split; reflexivity. }
  destruct H as [H1 H2]. split; congruence.
Qed.

Lemma history_state_app (h : list Turn) (t : Turn) :
  history_state (h ++ [t]) = history_step (history_state h) t.
Proof. unfold history_state. now rewrite fold_left_app. Qed.

(** What an accepted history looks like. *)
Lemma history_state_shape (h : list Turn) :
  forall b, history_state h = Some b ->
  (forall pre t post, h = pre ++ t :: post -> turn_role t = assistant ->
     exists pre' u, pre = pre' ++ [u] /\ turn_role u = user)
  /\ (b = true -> exists h' u, h = h' ++ [u] /\ turn_role u = user).
Proof.
  induction h as [|x h IH] using rev_ind; intros b Hb.
  - split.
    + intros pre t post E. destruct pre; discriminate E.
    + intros ->. discriminate Hb.
  - rewrite history_state_app in Hb.
    destruct (history_state h) as [b'|] eqn:Eh; [|discriminate Hb].
    destruct (IH b' eq_refl) as [IH1 IH2]. cbn in Hb. split.
    + intros pre t post E Ht.
      destruct post as [|y post] using rev_ind.
      * apply app_inj_tail in E. destruct E as [-> ->].
        rewrite Ht in Hb. destruct b'; [|discriminate Hb]. now apply IH2.
      * clear IHpost.
        rewrite app_comm_cons, app_assoc in E.
        apply app_inj_tail in E. destruct E as [E _].
        exact (IH1 pre t post E Ht).
    + intros ->. exists h, x. split; [reflexivity|].
      destruct (turn_role x); [reflexivity|].
      destruct b'; discriminate Hb.
Qed.

Lemma history_invariant_step (ev : Event) (w : World) :
  loading_invariant w ->
  (exists b, history_state (messages (chatManager w)) = Some b
             /\ (awaiting w <> [] -> b = true)) ->
  exists b, history_state (messages (chatManager (exec (step ev) w))) = Some b
            /\ (awaiting (exec (step ev) w) <> [] -> b = true).
Proof.
  intros Hload [b [Hb Hopen]].
  step_cases ev w; cbn [chatManager messages awaiting];
    try (exists b; split; assumption).
  - (* accepted submit: a user turn is added *)
    exists true. rewrite history_state_app, Hb. split; [reflexivity | auto].
  - (* reply: the open user turn is answered *)
    assert (Hne : awaiting w <> []).
    { intros E. rewrite E in Hawait. discriminate. }
    rewrite (Hopen Hne) in Hb.
    exists false. rewrite history_state_app, Hb. split; [reflexivity|].
    intros Hf. exfalso. apply Hf.
    destruct Hload as [[_ [q Hq]]|[_ Ha]]; [|contradiction].
    rewrite Hq in *. now destruct (awaiting_single _ _ Hawait).
  - (* failure: the history is as before, fewer requests are open *)
    exists b. split; [exact Hb|]. intros Hf. apply Hopen.
    intros E. rewrite E in Hawait. discriminate.
Qed.

Lemma history_invariant_run (evs : list Event) :
  exists b, history_state (messages (chatManager (run evs init))) = Some b.
Proof.
  assert (H : loading_invariant (run evs init)
              /\ exists b,
                   history_state (messages (chatManager (run evs init))) = Some b
                   /\ (awaiting (run evs init) <> [] -> b = true)).
  { apply (run_invariant
             (fun w => loading_invariant w
                       /\ exists b,
                            history_state (messages (chatManager w)) = Some b
                            /\ (awaiting w <> [] -> b = true))).
    - split; [right; split; reflexivity|].
      exists false. split; [reflexivity|]. intros H. now elim H.
    - intros ev w [Hl Hh]. split.
      + now apply loading_invariant_step.
      + now apply history_invariant_step. }
  destruct H as [_ [b [Hb _]]]. now exists b.
Qed.

(** X5: when the component renders after every event before the next
    is handled, each assistant turn of the engine history comes directly
    after a user turn: the history never starts with an assistant turn
    and never holds two assistant turns in a row. *)
Theorem assistant_turn_follows_user_turn
  (evs : list Event) (pre post : list Turn) (t : Turn) :
  messages (chatManager
              (world (page_run (rendered_each evs) (page_of init))))
  = pre ++ t :: post ->
  turn_role t = assistant ->
  exists pre' u, pre = pre' ++ [u] /\ turn_role u = user.
Proof.
  rewrite page_run_rendered_each. cbn [world page_of].
  intros E Ht. destruct (history_invariant_run evs) as [b Hb].
  destruct (history_state_shape _ b Hb) as [H _].
  exact (H pre t post E Ht).
Qed.

Lemma assistant_turn_follows_user_turn_witness :
  exists pre' u,
    [{| turn_role := user; turn_text := lit "hi" |}] = pre' ++ [u]
    /\ turn_role u = user.
Proof.
  apply (assistant_turn_follows_user_turn
           [Change (lit "hi"); Click; Settle 0 (Fulfilled (lit "abc"))]
           [{| turn_role := user; turn_text := lit "hi" |}] []
           {| turn_role := assistant; turn_text := lit "abc" |});
    reflexivity.
Defined.

(* ------------------------------------------------------------------ *)
(** ** The scheduled timers *)

Lemma nodup_ids_inj (l : list Interval) :
  NoDup (map intervalId l) ->
  forall a b, In a l -> In b l -> intervalId a = intervalId b -> a = b.
Proof.
  induction l as [|h l IH]; intros Hn a b Ha Hb E; [destruct Ha|].
  cbn in Hn. inversion Hn as [|? ? Hnot Hn']; subst.
  destruct Ha as [->|Ha], Hb as [->|Hb].
  - reflexivity.
  - exfalso. apply Hnot. rewrite E. now apply in_map.
  - exfalso. apply Hnot. rewrite <- E. now apply in_map.
  - now apply IH.
Qed.

Lemma nodup_ids_filter (g : Interval -> bool) (l : list Interval) :
  NoDup (map intervalId l) -> NoDup (map intervalId (filter g l)).
Proof.
  induction l as [|h l IH]; intros Hn; [constructor|].
  cbn in Hn. inversion Hn as [|? ? Hnot Hn']; subst.
  cbn. destruct (g h); [|now apply IH].
  cbn. constructor; [|now apply IH].
  intros Hin. apply Hnot. apply in_map_iff in Hin.
  destruct Hin as [x [Ex Hx]]. apply filter_In in Hx.
  apply in_map_iff. exists x. tauto.
Qed.

Lemma timer_ok_later (n : nat) (t : Interval) :
  timer_ok n t -> timer_ok (S n) t.
Proof. intros (H1 & H2 & H3). repeat split; try lia; assumption. Qed.

Lemma timers_ok_step (ev : Event) (w : World) :
  timers_ok w -> timers_ok (exec (step ev) w).
Proof.
  intros [Hall Hnd]. unfold timers_ok.
  step_cases ev w; cbn [intervals nextIntervalId];
    try (split; assumption).
  - (* reply: a timer with a new id and counter 0 is added *)
    split.
    + apply Forall_app. split.
      * eapply Forall_impl; [|exact Hall]. exact (timer_ok_later _).
      * constructor; [|constructor]. unfold timer_ok, JS.length. cbn.
        repeat split; lia.
    + rewrite map_app. apply NoDup_app; [exact Hnd | | ].
      * cbn. constructor; [intros []|constructor].
      * intros a Ha [E|[]]. cbn in E. subst a.
        apply in_map_iff in Ha. destruct Ha as [x [Ex Hx]].
        rewrite Forall_forall in Hall. destruct (Hall x Hx) as (_ & Hlt & _).
        lia.
  - (* tick below the end: the counter of this timer moves by one *)
    destruct (find_interval_id _ _ _ Hfind) as [Hid Hin].
    split.
    + apply Forall_map. apply Forall_forall. intros x Hx.
      rewrite Forall_forall in Hall.
      destruct (Nat.eqb (intervalId x) (intervalId t)) eqn:E.
      * apply Nat.eqb_eq in E.
        assert (x = t) by (apply (nodup_ids_inj _ Hnd); assumption).
        subst x. destruct (Hall t Hin) as (Hr & Hlt & Hd).
        unfold timer_ok. cbn. repeat split; try lia; assumption.
      * now apply Hall.
    + rewrite map_map.
      rewrite (map_ext _ intervalId); [exact Hnd|].
      intros a. now destruct (Nat.eqb (intervalId a) (intervalId t)).
  - (* tick past the end: the timer is removed *)
    split.
    + apply Forall_forall. intros x Hx. apply filter_In in Hx.
      rewrite Forall_forall in Hall. now apply Hall.
    + now apply nodup_ids_filter.
Qed.

(** X6: in every run, the timers still scheduled have distinct ids, a
    period of 30, and a counter [i] with [0 <= i <= result.length + 1]:
    the callback only ever calls [result.slice(0, i)] with [i] between 0
    and the length of the reply. *)
Theorem timers_stay_within_their_reply (evs : list Event) :
  NoDup (map intervalId (intervals (run evs init)))
  /\ forall t, In t (intervals (run evs init)) ->
       (0 <= i t <= JS.length (result t) + 1)%Z
       /\ delay t = 30%Z
       /\ intervalId t < nextIntervalId (run evs init).
Proof.
  assert (H : timers_ok (run evs init)).
  { apply run_invariant; [|exact timers_ok_step].
    split; constructor. }
  destruct H as [Hall Hnd]. split; [exact Hnd|].
  intros t Ht. rewrite Forall_forall in Hall.
  destruct (Hall t Ht) as (H1 & H2 & H3). auto.
Qed.

Lemma shown_ok_step (ev : Event) (w : World) :
  shown_ok w -> shown_ok (exec (step ev) w).
Proof.
  intros [Hall Hd]. unfold shown_ok, said in *.
  step_cases ev w;
    cbn [intervals ui displayText chatManager messages];
    try (split; assumption).
  - (* accepted submit: the display is emptied, the history grows *)
    split; [|now left].
    eapply Forall_impl; [|exact Hall].
    intros a [Ha Hs]. split; [exact Ha|]. apply in_or_app. now left.
  - (* reply: the new timer reveals the turn just added *)
    split.
    + apply Forall_app. split.
      * eapply Forall_impl; [|exact Hall].
        intros a [Ha Hs]. split; [exact Ha|]. apply in_or_app. now left.
      * constructor; [|constructor]. cbn. split; [lia|].
        apply in_or_app. right. now left.
    + destruct Hd as [Hd|[R [k [Hs Hd]]]]; [now left|].
      right. exists R, k. split; [|exact Hd]. apply in_or_app. now left.
  - (* tick below the end: a prefix of this timer's reply is shown *)
    destruct (find_interval_id _ _ _ Hfind) as [_ Hin].
    rewrite Forall_forall in Hall. split.
    + apply Forall_map. apply Forall_forall. intros x Hx.
      destruct (Hall x Hx) as [Hx0 Hxs].
      destruct (Nat.eqb (intervalId x) (intervalId t)); cbn; split;
        try lia; assumption.
    + destruct (Hall t Hin) as [Ht0 Hts].
      right. exists (result t), (Z.to_nat (i t)). split; [exact Hts|].
      now apply slice_prefix.
  - (* tick past the end *)
    split; [|exact Hd].
    apply Forall_forall. intros x Hx. apply filter_In in Hx.
    rewrite Forall_forall in Hall. now apply Hall.
Qed.

(** X7: in every run, what [displayText] holds is either the empty
    string or a prefix of a reply that the engine gave and that is
    recorded as an assistant turn of its history: the page never displays
    text that did not come from the engine (an error included). *)
Theorem display_is_prefix_of_a_reply (evs : list Event) :
  displayText (ui (run evs init)) = []
  \/ exists R k,
       In {| turn_role := assistant; turn_text := R |}
          (messages (chatManager (run evs init)))
       /\ displayText (ui (run evs init)) = firstn k R.
Proof.
  assert (H : shown_ok (run evs init)).
  { apply run_invariant; [|exact shown_ok_step].
    split; [constructor | now left]. }
  exact (proj2 H).
Qed.

Lemma find_interval_other_map (id id' : nat) (l : list Interval) :
  id <> id' ->
  find_interval id
    (map (fun t' => if Nat.eqb (intervalId t') id'
                    then {| intervalId := intervalId t'; result := result t';
                            i := i t' + 1; delay := delay t' |}
                    else t') l)
  = find_interval id l.
Proof.
  intros Hne. induction l as [|h l IH]; [reflexivity|].
  cbn. destruct (Nat.eqb (intervalId h) id') eqn:E; cbn.
  - apply Nat.eqb_eq in E.
    assert (E' : Nat.eqb (intervalId h) id = false)
      by (apply Nat.eqb_neq; congruence).
    rewrite E'. exact IH.
  - destruct (Nat.eqb (intervalId h) id); [reflexivity | exact IH].
Qed.

Lemma find_interval_other_filter (id id' : nat) (l : list Interval) :
  id <> id' ->
  find_interval id (filter (fun t' => negb (Nat.eqb (intervalId t') id')) l)
  = find_interval id l.
Proof.
  intros Hne. induction l as [|h l IH]; [reflexivity|].
  cbn. destruct (Nat.eqb (intervalId h) id') eqn:E; cbn.
  - apply Nat.eqb_eq in E.
    assert (E' : Nat.eqb (intervalId h) id = false)
      by (apply Nat.eqb_neq; congruence).
    rewrite E'. exact IH.
  - destruct (Nat.eqb (intervalId h) id); [reflexivity | exact IH].
Qed.

Lemma find_interval_app_new (id : nat) (l : list Interval) (n : Interval) :
  intervalId n <> id ->
  find_interval id (l ++ [n]) = find_interval id l.
Proof.
  intros Hne. induction l as [|h l IH]; cbn.
  - apply Nat.eqb_neq in Hne. now rewrite Hne.
  - destruct (Nat.eqb (intervalId h) id); [reflexivity | exact IH].
Qed.

(** How one event moves the timer [id]: only its own tick touches it. *)
Lemma timer_step (id : nat) (ev : Event) (w : World) :
  id < nextIntervalId w ->
  id < nextIntervalId (exec (step ev) w)
  /\ match find_interval id (intervals w) with
     | None => find_interval id (intervals (exec (step ev) w)) = None
     | Some t =>
         if is_tick id ev
         then if (i t <=? JS.length (result t))%Z
              then find_interval id (intervals (exec (step ev) w))
                   = Some (bump id 1 t)
              else find_interval id (intervals (exec (step ev) w)) = None
         else find_interval id (intervals (exec (step ev) w)) = Some t
     end.
Proof.
  intros Hlt.
  step_cases ev w; cbn [intervals nextIntervalId is_tick];
    try (split; [lia|]; destruct (find_interval id (intervals w)); reflexivity).
  - (* reply: the new timer has a larger id *)
    split; [lia|].
    rewrite find_interval_app_new by (cbn; lia).
    destruct (find_interval id (intervals w)); reflexivity.
  - (* some timer ticks below its end *)
    split; [lia|].
    destruct (Nat.eqb id0 id) eqn:E.
    + apply Nat.eqb_eq in E. subst id0. rewrite Hfind.
      destruct (find_interval_id _ _ _ Hfind) as [Hid _].
      assert (Hle : (i t <=? JS.length (result t))%Z = true)
        by (apply Z.leb_le; exact Hi).
      rewrite Hle, Hid.
      change (find_interval id (map (bump id 1) (intervals w))
              = Some (bump id 1 t)).
      now rewrite find_interval_bump, Hfind.
    + apply Nat.eqb_neq in E.
      destruct (find_interval_id _ _ _ Hfind) as [Hid _].
      rewrite find_interval_other_map by congruence.
      destruct (find_interval id (intervals w)); reflexivity.
  - (* some timer ticks past its end *)
    split; [lia|].
    destruct (Nat.eqb id0 id) eqn:E.
    + apply Nat.eqb_eq in E. subst id0. rewrite Hfind.
      destruct (find_interval_id _ _ _ Hfind) as [Hid _].
      assert (Hle : (i t <=? JS.length (result t))%Z = false)
        by (apply Z.leb_gt; lia).
      rewrite Hle, Hid. apply find_interval_cleared.
    + apply Nat.eqb_neq in E.
      destruct (find_interval_id _ _ _ Hfind) as [Hid _].
      rewrite find_interval_other_filter by congruence.
      destruct (find_interval id (intervals w)); reflexivity.
  - (* a tick of a timer that is not scheduled *)
    split; [lia|].
    destruct (find_interval id (intervals w)) as [t|] eqn:Ef; [|reflexivity].
    destruct (Nat.eqb id0 id) eqn:E; [|reflexivity].
    apply Nat.eqb_eq in E. subst id0. congruence.
Qed.

Lemma timer_gone (id : nat) (evs : list Event) :
  forall w, id < nextIntervalId w ->
  match find_interval id (intervals w) with
  | None => True
  | Some t =>
      (0 <= i t <= JS.length (result t) + 1)%Z
      /\ (JS.length (result t) + 2 - i t <= Z.of_nat (count_ticks id evs))%Z
  end ->
  find_interval id (intervals (run evs w)) = None.
Proof.
  induction evs as [|ev evs IH]; intros w Hlt H.
  - cbn [run fold_left].
    destruct (find_interval id (intervals w)) as [t|]; [|reflexivity].
    cbn in H. lia.
  - rewrite run_cons.
    destruct (timer_step id ev w Hlt) as [Hlt' Hs].
    apply IH; [exact Hlt'|].
    unfold count_ticks in H. cbn [filter] in H.
    destruct (find_interval id (intervals w)) as [t|] eqn:Ef;
      [|now rewrite Hs].
    destruct (find_interval_id _ _ _ Ef) as [Hid _].
    destruct H as [Hr Hc].
    destruct (is_tick id ev).
    + cbn [List.length] in Hc.
      destruct (i t <=? JS.length (result t))%Z eqn:Hle; rewrite Hs; [|exact I].
      apply Z.leb_le in Hle.
      unfold bump. rewrite Hid, Nat.eqb_refl. cbn [i result].
      unfold count_ticks. lia.
    + rewrite Hs. split; [exact Hr|]. unfold count_ticks. exact Hc.
Qed.

(** X8: a scheduled timer stops by itself whatever else happens.  From
    any state in which the timer [id] is scheduled with its counter [i]
    between 0 and [result.length + 1], after any sequence of events in
    which it fires at least [result.length + 2 - i] times it is no longer
    scheduled, and it is not scheduled again. *)
Theorem timer_stops_after_its_ticks
  (w : World) (id : nat) (t : Interval) (evs : list Event) :
  find_interval id (intervals w) = Some t ->
  id < nextIntervalId w ->
  (0 <= i t <= JS.length (result t) + 1)%Z ->
  (JS.length (result t) + 2 - i t <= Z.of_nat (count_ticks id evs))%Z ->
  forall more, find_interval id (intervals (run (evs ++ more) w)) = None.
Proof.
  intros Hf Hlt Hr Hc more.
  apply timer_gone; [exact Hlt|]. rewrite Hf. split; [exact Hr|].
  unfold count_ticks in *. rewrite filter_app, length_app. lia.
Qed.

Lemma timer_stops_after_its_ticks_witness :
  find_interval 0
    (intervals (run ([Tick 0; Click; Tick 0; Settle 1 (Fulfilled (lit "x"));
                      Tick 1; Tick 0] ++ [Tick 1; Tick 0])
                     reveal_in_progress)) = None.
Proof.
  apply (timer_stops_after_its_ticks reveal_in_progress 0
           {| intervalId := 0; result := lit "abc"; i := 2; delay := 30 |}
           [Tick 0; Click; Tick 0; Settle 1 (Fulfilled (lit "x"));
            Tick 1; Tick 0]
           eq_refl).
  - vm_compute. lia.
  - vm_compute. split; discriminate.
  - vm_compute. discriminate.
Defined.

(* ------------------------------------------------------------------ *)
(** ** A submit that is answered *)

(** X9: from an accepted submit whose request is answered by [R],
    whatever else happens while the request is outstanding short of
    another click (edits of the input, ticks of earlier timers), the
    history gains exactly the user turn carrying the prompt as it was when
    the submit was pressed, followed by the assistant turn carrying [R];
    one request was made; [response] is [R], [isLoading] is false, and a
    timer for [R] is scheduled with its counter at 0. *)
Theorem submit_then_reply
  (w : World) (mid : list Event) (R : jsstring) :
  isLoading (ui w) = false -> awaiting w = [] ->
  trim (prompt (ui w)) <> [] ->
  forallb (fun ev => negb (settles (requests (chatManager w)) ev)) mid = true ->
  forallb (fun ev => negb (is_click ev)) mid = true ->
  let p := requests (chatManager w) in
  let ws := run (Click :: mid) w in
  let w' := exec (step (Settle p (Fulfilled R))) ws in
  isLoading (ui w') = false
  /\ awaiting w' = []
  /\ response (ui w') = R
  /\ messages (chatManager w')
     = messages (chatManager w)
       ++ [{| turn_role := user; turn_text := prompt (ui w) |};
           {| turn_role := assistant; turn_text := R |}]
  /\ request_count (trace w') = S (request_count (trace w))
  /\ trace w' = trace ws ++ [EAddMessage assistant R; ESetResponse R;
                             ESetInterval (nextIntervalId ws) 30;
                             ESetIsLoading false]
  /\ In {| intervalId := nextIntervalId ws; result := R; i := 0; delay := 30 |}
        (intervals w').
Proof.
  intros Hl Ha Hp Hmid _ p ws w'.
  pose proof (onClick_accepted w Hp Hl) as E.
  set (w0 := exec (step Click) w) in *.
  assert (Hsub : submitting p w0).
  { rewrite E. unfold submitting. cbn. rewrite Ha. repeat split. }
  destruct (submitting_run p mid w0 Hsub Hmid) as ((S1 & S2 & S3) & C & M & _).
  assert (Hws : ws = run mid w0) by reflexivity.
  rewrite <- Hws in *.
  assert (Hex : existsb (Nat.eqb p) (awaiting ws) = true).
  { rewrite S2. cbn. now rewrite Nat.eqb_refl. }
  subst w'. rewrite (settle_fulfilled ws p R Hex).
  cbn [ui isLoading awaiting response trace chatManager messages intervals].
  rewrite S2, M. cbn [filter negb]. rewrite Nat.eqb_refl.
  split; [reflexivity|]. split; [reflexivity|]. split; [reflexivity|].
  split.
  { rewrite E. cbn [chatManager messages]. now rewrite <- app_assoc. }
  split.
  { rewrite request_count_app, C, E. cbn [trace].
    rewrite request_count_app. cbn. lia. }
  split; [reflexivity|].
  apply in_or_app. right. now left.
Qed.

Lemma submit_then_reply_witness :
  messages
    (chatManager
       (exec (step (Settle 0 (Fulfilled (lit "abc"))))
             (run [Click; Change (lit "bye"); Tick 0]
                  (run [Change (lit "hi")] init))))
  = [{| turn_role := user; turn_text := lit "hi" |};
     {| turn_role := assistant; turn_text := lit "abc" |}].
Proof.
  assert (A1 : isLoading (ui (run [Change (lit "hi")] init)) = false)
    by reflexivity.
  assert (A2 : awaiting (run [Change (lit "hi")] init) = []) by reflexivity.
  assert (A3 : trim (prompt (ui (run [Change (lit "hi")] init))) <> [])
    by (vm_compute; discriminate).
  assert (A4 : forallb
                 (fun ev => negb (settles (requests (chatManager
                                   (run [Change (lit "hi")] init))) ev))
                 [Change (lit "bye"); Tick 0] = true) by reflexivity.
  assert (A5 : forallb (fun ev => negb (is_click ev))
                 [Change (lit "bye"); Tick 0] = true) by reflexivity.
  pose proof (submit_then_reply
                (run [Change (lit "hi")] init)
                [Change (lit "bye"); Tick 0] (lit "abc")
                A1 A2 A3 A4 A5) as H.
  cbv zeta in H. destruct H as (_ & _ & _ & H4 & _).
  exact H4.
Defined.

(* ------------------------------------------------------------------ *)
(** ** The rendered button *)

(** X10: when the component renders after every event before the next
    is handled, the button is rendered disabled, with the not-allowed
    cursor and the text [Thinking...], exactly while an engine request is
    outstanding; otherwise it is enabled with the text [Generate].  While
    it is disabled no answer is rendered. *)
Theorem button_disabled_while_request_outstanding (evs : list Event) :
  let w := world (page_run (rendered_each evs) (page_of init)) in
  (awaiting w <> [] ->
     buttonDisabled (render w) = true
     /\ buttonText (render w) = lit "Thinking..."
     /\ buttonCursor (render w) = lit "not-allowed"
     /\ output (render w) = None)
  /\ (awaiting w = [] ->
        buttonDisabled (render w) = false
        /\ buttonText (render w) = lit "Generate"
        /\ buttonCursor (render w) = lit "pointer").
Proof.
  intros w. subst w. rewrite page_run_rendered_each. cbn [world page_of].
  set (w := run evs init).
  assert (Inv : loading_invariant w).
  { apply loading_invariant_run. right. split; reflexivity. }
  destruct (reply_ok_run evs) as [Hr _]. fold w in Hr.
  unfold render. cbn [buttonDisabled buttonText buttonCursor output].
  destruct Inv as [[Ht [q Hq]]|[Hf Ha]].
  - rewrite (Hr Ht), Ht, Hq. split.
    + intros _. repeat split.
    + discriminate.
  - rewrite Hf, Ha. split.
    + intros H. now elim H.
    + intros _. repeat split.
Qed.

(* ------------------------------------------------------------------ *)
(** ** The scene effect: the position buffer *)

Lemma array_set_app (pre a : list Scene.num) (n : nat) (v : Scene.num) :
  Scene.array_set (List.length pre + n) v (pre ++ a)
  = pre ++ Scene.array_set n v a.
Proof.
  induction pre as [|x pre IH]; [reflexivity|].
  cbn. now rewrite IH.
Qed.

Lemma array_set_here (pre a : list Scene.num) (v : Scene.num) :
  Scene.array_set (List.length pre) v (pre ++ a)
  = pre ++ Scene.array_set 0 v a.
Proof.
  rewrite <- (Nat.add_0_r (List.length pre)) at 1. apply array_set_app.
Qed.

Lemma map_seq_shift {A} (f : nat -> A) (k n : nat) :
  map f (seq k n) = map (fun j => f (k + j)) (seq 0 n).
Proof.
  revert f. induction k as [|k IH]; intros f; [reflexivity|].
  rewrite <- seq_shift, map_map. apply IH.
Qed.

Lemma positions_loop_fills (rem : nat) :
  forall fuel d pre,
  rem < fuel ->
  Scene.positions_loop fuel (List.length pre + 3 * rem) (List.length pre) d
    (pre ++ repeat (Scene.int 0) (3 * rem))
  = Some (d + 3 * rem,
          pre ++ map (fun j => Scene.spread (Scene.Random (d + j)))
                     (seq 0 (3 * rem))).
Proof.
  induction rem as [|rem IH]; intros fuel d pre Hf.
  - destruct fuel as [|fuel]; [lia|].
    change (3 * 0) with 0.
    cbn [Scene.positions_loop repeat seq map].
    rewrite !Nat.add_0_r, Nat.ltb_irrefl. reflexivity.
  - destruct fuel as [|fuel]; [lia|].
    cbn [Scene.positions_loop].
    assert (Hlt : Nat.ltb (List.length pre) (List.length pre + 3 * S rem) = true)
      by (apply Nat.ltb_lt; lia).
    rewrite Hlt.
    replace (3 * S rem) with (3 + 3 * rem) by lia.
    cbn [repeat Nat.add].
    rewrite array_set_here, !array_set_app. cbn [Scene.array_set].
    set (v0 := Scene.spread (Scene.Random d)).
    set (v1 := Scene.spread (Scene.Random (d + 1))).
    set (v2 := Scene.spread (Scene.Random (d + 2))).
    specialize (IH fuel (d + 3) (pre ++ [v0; v1; v2])).
    rewrite length_app in IH. cbn [List.length] in IH.
    rewrite <- app_assoc in IH. cbn [app] in IH.
    replace (List.length pre + S (S (S (3 * rem))))
      with (List.length pre + 3 + 3 * rem) by lia.
    rewrite IH by lia.
    f_equal. f_equal; [lia|].
    rewrite <- app_assoc. f_equal.
    change (S (S (S (3 * rem)))) with (3 + 3 * rem).
    rewrite seq_app, map_app. cbn [seq map app Nat.add].
    rewrite !Nat.add_0_r. fold v0 v1 v2. do 3 f_equal.
    rewrite (map_seq_shift _ 3). apply map_ext. intros j.
    do 2 f_equal. lia.
Qed.

(** X11: for any particle count, the second loop of the effect ends
    after that many iterations, having made three [Math.random()] calls
    per particle.  It writes every entry of the buffer of three
    coordinates per particle exactly once, entry [j] from the [j]-th of
    these calls, and writes nothing outside the buffer: no entry keeps the
    initial 0 and the length is unchanged. *)
Theorem position_buffer_filled (count drawn : nat) :
  let a := map (fun j => Scene.spread (Scene.Random (drawn + j)))
               (seq 0 (count * 3)) in
  Scene.positions_loop (S count) (count * 3) 0 drawn
    (repeat (Scene.int 0) (count * 3))
  = Some (drawn + count * 3, a)
  /\ List.length a = count * 3
  /\ ~ In (Scene.int 0) a.
Proof.
  intros a. split; [|split].
  - pose proof (positions_loop_fills count (S count) drawn [] (Nat.lt_succ_diag_r _))
      as H.
    cbn [List.length app Nat.add] in H.
    unfold a. replace (count * 3) with (3 * count) by lia. exact H.
  - unfold a. now rewrite length_map, length_seq.
  - unfold a. intros Hin. apply in_map_iff in Hin.
    destruct Hin as [j [Hj _]]. discriminate Hj.
Qed.

(* ------------------------------------------------------------------ *)
(** ** The scene effect: objects, listeners and disposal *)

Lemma sbind_ok {A B} (m : Scene.SM A) (k : A -> Scene.SM B)
  (st st' : Scene.Stage) (a : A) :
  m st = (inr a, st') -> Scene.sbind m k st = k a st'.
Proof. intros H. unfold Scene.sbind. now rewrite H. Qed.

Lemma sbind_throw {A B} (m : Scene.SM A) (k : A -> Scene.SM B)
  (st st' : Scene.Stage) (e : Scene.Exception) :
  m st = (inl e, st') -> Scene.sbind m k st = (inl e, st').
Proof. intros H. unfold Scene.sbind. now rewrite H. Qed.

Ltac scene_norm :=
  cbn [Scene.nextId Scene.draws Scene.emojisRef Scene.mountRef
       Scene.sceneChildren Scene.resizeListeners Scene.disposed
       Scene.animateCalls].

(** Run the next primitive of a scene program and tidy the stage. *)
Ltac scene_step :=
  erewrite sbind_ok; [|reflexivity]; scene_norm.

Lemma emoji_iteration_spec (sc : nat) (st : Scene.Stage) :
  Scene.emoji_iteration sc st
  = (inr tt,
     {| Scene.nextId := Scene.nextId st + 4;
        Scene.draws := Scene.draws st + 5;
        Scene.emojisRef :=
          Scene.emojisRef st
          ++ [Scene.sprite_at (Scene.nextId st) (Scene.draws st)];
        Scene.mountRef := Scene.mountRef st;
        Scene.sceneChildren :=
          Scene.sceneChildren st ++ [(sc, Scene.nextId st + 3)];
        Scene.resizeListeners := Scene.resizeListeners st;
        Scene.disposed := Scene.disposed st;
        Scene.animateCalls := Scene.animateCalls st |}).
Proof.
  unfold Scene.emoji_iteration. do 10 scene_step.
  unfold Scene.scene_add, Scene.sprite_at. scene_norm.
  repeat f_equal; lia.
Qed.

Lemma emoji_loop_spec (sc n : nat) :
  forall st,
  Scene.emoji_loop sc n st
  = (inr tt,
     {| Scene.nextId := Scene.nextId st + 4 * n;
        Scene.draws := Scene.draws st + 5 * n;
        Scene.emojisRef :=
          Scene.emojisRef st
          ++ map (fun k => Scene.sprite_at (Scene.nextId st + 4 * k)
                                           (Scene.draws st + 5 * k))
                 (seq 0 n);
        Scene.mountRef := Scene.mountRef st;
        Scene.sceneChildren :=
          Scene.sceneChildren st
          ++ map (fun k => (sc, Scene.nextId st + 4 * k + 3)) (seq 0 n);
        Scene.resizeListeners := Scene.resizeListeners st;
        Scene.disposed := Scene.disposed st;
        Scene.animateCalls := Scene.animateCalls st |}).
Proof.
  induction n as [|n IH]; intros st.
  - destruct st. cbn. rewrite !app_nil_r, !Nat.add_0_r. reflexivity.
  - cbn [Scene.emoji_loop]. unfold Scene.sbind at 1.
    rewrite emoji_iteration_spec, IH.
    cbn [Scene.nextId Scene.draws Scene.emojisRef Scene.mountRef
         Scene.sceneChildren Scene.resizeListeners Scene.disposed
         Scene.animateCalls].
    rewrite <- !app_assoc. cbn [app].
    cbn [seq map]. rewrite <- (seq_shift n 0), !map_map.
    rewrite !Nat.mul_0_r, !Nat.add_0_r.
    f_equal. f_equal; try lia.
    + f_equal. f_equal. apply map_ext. intros k. f_equal; lia.
    + f_equal. f_equal. apply map_ext. intros k. f_equal; lia.
Qed.

Lemma filter_fresh (n h : nat) (l : list nat) :
  Forall (fun k => k < n) l -> n <= h ->
  filter (fun k => negb (Nat.eqb k h)) l = l.
Proof.
  intros Hall Hn. induction Hall as [|x l Hx _ IH]; [reflexivity|].
  cbn. assert (E : Nat.eqb x h = false) by (apply Nat.eqb_neq; lia).
  rewrite E. cbn. now rewrite IH.
Qed.

Lemma existsb_fresh (n h : nat) (l : list nat) :
  Forall (fun k => k < n) l -> n <= h -> existsb (Nat.eqb h) l = false.
Proof.
  intros Hall Hn. induction Hall as [|x l Hx _ IH]; [reflexivity|].
  cbn. assert (E : Nat.eqb h x = false) by (apply Nat.eqb_neq; lia).
  now rewrite E, IH.
Qed.

Lemma fill_positions_spec (st : Scene.Stage) :
  Scene.fill_positions st
  = (inr (map (fun j => Scene.spread (Scene.Random (Scene.draws st + j)))
              (seq 0 (Scene.backgroundParticleCount * 3))),
     {| Scene.nextId := Scene.nextId st;
        Scene.draws := Scene.draws st + Scene.backgroundParticleCount * 3;
        Scene.emojisRef := Scene.emojisRef st;
        Scene.mountRef := Scene.mountRef st;
        Scene.sceneChildren := Scene.sceneChildren st;
        Scene.resizeListeners := Scene.resizeListeners st;
        Scene.disposed := Scene.disposed st;
        Scene.animateCalls := Scene.animateCalls st |}).
Proof.
  unfold Scene.fill_positions.
  pose proof (positions_loop_fills Scene.backgroundParticleCount
                (S Scene.backgroundParticleCount) (Scene.draws st) []
                (Nat.lt_succ_diag_r _)) as H.
  cbn [List.length app Nat.add] in H.
  replace (3 * Scene.backgroundParticleCount)
    with (Scene.backgroundParticleCount * 3) in H by lia.
  cbv zeta. rewrite H. reflexivity.
Qed.

Lemma appendChild_spec (n el : nat) (kids : list nat) (st : Scene.Stage) :
  Scene.mountRef st = Some kids ->
  Forall (fun k => k < n) kids ->
  n <= el ->
  Scene.mountRef_appendChild el st
  = (inr tt,
     {| Scene.nextId := Scene.nextId st; Scene.draws := Scene.draws st;
        Scene.emojisRef := Scene.emojisRef st;
        Scene.mountRef := Some (kids ++ [el]);
        Scene.sceneChildren := Scene.sceneChildren st;
        Scene.resizeListeners := Scene.resizeListeners st;
        Scene.disposed := Scene.disposed st;
        Scene.animateCalls := Scene.animateCalls st |}).
Proof.
  intros Hm Hk Hel. unfold Scene.mountRef_appendChild. rewrite Hm.
  unfold Scene.set_mountRef. now rewrite (filter_fresh _ _ _ Hk Hel).
Qed.

Lemma addResizeListener_spec (n f : nat) (st : Scene.Stage) :
  Forall (fun k => k < n) (Scene.resizeListeners st) ->
  n <= f ->
  Scene.addResizeListener f st
  = (inr tt,
     {| Scene.nextId := Scene.nextId st; Scene.draws := Scene.draws st;
        Scene.emojisRef := Scene.emojisRef st;
        Scene.mountRef := Scene.mountRef st;
        Scene.sceneChildren := Scene.sceneChildren st;
        Scene.resizeListeners := Scene.resizeListeners st ++ [f];
        Scene.disposed := Scene.disposed st;
        Scene.animateCalls := Scene.animateCalls st |}).
Proof.
  intros Hl Hf. unfold Scene.addResizeListener.
  now rewrite (existsb_fresh _ _ _ Hl Hf).
Qed.

Lemma forall_lt_weaken (n m : nat) (l : list nat) :
  Forall (fun k => k < n) l -> n <= m -> Forall (fun k => k < m) l.
Proof.
  intros H Hle. eapply Forall_impl; [|exact H]. cbn. intros; lia.
Qed.


Lemma effect_spec (st : Scene.Stage) (kids : list nat) :
  Scene.mountRef st = Some kids ->
  Scene.well_formed st ->
  let n := Scene.nextId st in
  Scene.effect st
  = (inr {| Scene.scene := n; Scene.camera := n + 61;
            Scene.renderer := n + 62; Scene.handleResize := n + 63;
            Scene.geometry := n + 64; Scene.material := n + 65;
            Scene.sphere := n + 66; Scene.particleGeometry := n + 67;
            Scene.positions :=
              map (fun j => Scene.spread
                              (Scene.Random (Scene.draws st + 75 + j)))
                  (seq 0 (Scene.backgroundParticleCount * 3));
            Scene.particleMaterial := n + 70; Scene.particles := n + 71 |},
     {| Scene.nextId := n + 72;
        Scene.draws := Scene.draws st + 75
                       + Scene.backgroundParticleCount * 3;
        Scene.emojisRef :=
          Scene.emojisRef st
          ++ map (fun k => Scene.sprite_at (n + 1 + 4 * k)
                                           (Scene.draws st + 5 * k))
                 (seq 0 Scene.emojiParticleCount);
        Scene.mountRef := Some (kids ++ [n + 62]);
        Scene.sceneChildren :=
          (Scene.sceneChildren st
           ++ map (fun k => (n, n + 1 + 4 * k + 3))
                  (seq 0 Scene.emojiParticleCount))
          ++ [(n, n + 66); (n, n + 71)];
        Scene.resizeListeners := Scene.resizeListeners st ++ [n + 63];
        Scene.disposed := Scene.disposed st;
        Scene.animateCalls := S (Scene.animateCalls st) |}).
Proof.
  intros Hm (Hl & Hk & _) n. specialize (Hk kids Hm). subst n.
  unfold Scene.effect.
  scene_step.
  erewrite sbind_ok; [|apply emoji_loop_spec]. scene_norm.
  change (4 * Scene.emojiParticleCount) with 60.
  change (5 * Scene.emojiParticleCount) with 75.
  do 3 scene_step.
  erewrite sbind_ok;
    [|apply (appendChild_spec (Scene.nextId st) _ kids);
      [exact Hm | exact Hk | lia]].
  scene_norm.
  erewrite sbind_ok;
    [|apply (addResizeListener_spec (Scene.nextId st));
      [exact Hl | lia]].
  scene_norm.
  do 6 scene_step.
  erewrite sbind_ok; [|apply fill_positions_spec]. scene_norm.
  do 5 scene_step.
  unfold Scene.sret.
  rewrite ?Nat.add_succ_l, <- ?Nat.add_succ_r.
  rewrite <- (app_assoc _ [_] [_]). cbn [app].
  assert (E1 : map (fun k => Scene.sprite_at (S (Scene.nextId st) + 4 * k)
                                             (Scene.draws st + 5 * k))
                   (seq 0 Scene.emojiParticleCount)
               = map (fun k => Scene.sprite_at (Scene.nextId st + 1 + 4 * k)
                                               (Scene.draws st + 5 * k))
                     (seq 0 Scene.emojiParticleCount)).
  { apply map_ext. intros k. f_equal. lia. }
  assert (E2 : map (fun k => (Scene.nextId st,
                              S (Scene.nextId st) + 4 * k + 3))
                   (seq 0 Scene.emojiParticleCount)
               = map (fun k => (Scene.nextId st,
                                Scene.nextId st + 1 + 4 * k + 3))
                     (seq 0 Scene.emojiParticleCount)).
  { apply map_ext. intros k. f_equal. lia. }
  rewrite E1, E2. reflexivity.
Qed.

Lemma dispose_emojis_spec (l : list Scene.Sprite) :
  forall st,
  Scene.dispose_emojis l st
  = (inr tt,
     {| Scene.nextId := Scene.nextId st; Scene.draws := Scene.draws st;
        Scene.emojisRef := Scene.emojisRef st;
        Scene.mountRef := Scene.mountRef st;
        Scene.sceneChildren := Scene.sceneChildren st;
        Scene.resizeListeners := Scene.resizeListeners st;
        Scene.disposed :=
          Scene.disposed st ++ flat_map Scene.sprite_disposals l;
        Scene.animateCalls := Scene.animateCalls st |}).
Proof.
  induction l as [|s l IH]; intros st.
  - destruct st. cbn. now rewrite app_nil_r.
  - cbn [Scene.dispose_emojis]. do 2 scene_step.
    rewrite IH. scene_norm.
    cbn [flat_map Scene.sprite_disposals app].
    rewrite <- !app_assoc. reflexivity.
Qed.

Lemma in_existsb_eqb (h : nat) (l : list nat) :
  existsb (Nat.eqb h) l = true <-> In h l.
Proof.
  rewrite existsb_exists. split.
  - intros [x [Hx E]]. apply Nat.eqb_eq in E. now subst.
  - intros H. exists h. split; [exact H | apply Nat.eqb_refl].
Qed.

(** X12: what the cleanup does depends on [mountRef.current] when it
    runs.  With the node attached and the renderer's element among its
    children, it removes the resize listener and the element, then calls
    [dispose] on the sphere's geometry and material, on the texture and
    the material of every sprite in [emojisRef.current], and on the
    renderer, in this order, and leaves [emojisRef.current] as it is.  With
    the ref null it throws a TypeError, and with the element not a child a
    NotFoundError: the listener is then removed but nothing is disposed. *)
Theorem cleanup_disposes_or_throws (l : Scene.Locals) (st : Scene.Stage) :
  let listeners' :=
    filter (fun g => negb (Nat.eqb g (Scene.handleResize l)))
           (Scene.resizeListeners st) in
  exists r st',
    Scene.cleanup l st = (r, st')
    /\ Scene.resizeListeners st' = listeners'
    /\ Scene.emojisRef st' = Scene.emojisRef st
    /\ match Scene.mountRef st with
       | None =>
           r = inl Scene.TypeError
           /\ Scene.disposed st' = Scene.disposed st
           /\ Scene.mountRef st' = None
       | Some kids =>
           if existsb (Nat.eqb (Scene.renderer l)) kids
           then r = inr tt
                /\ Scene.disposed st'
                   = Scene.disposed st
                     ++ [Scene.geometry l; Scene.material l]
                     ++ flat_map Scene.sprite_disposals (Scene.emojisRef st)
                     ++ [Scene.renderer l]
                /\ Scene.mountRef st'
                   = Some (filter (fun k => negb (Nat.eqb k (Scene.renderer l)))
                                  kids)
           else r = inl Scene.NotFoundError
                /\ Scene.disposed st' = Scene.disposed st
                /\ Scene.mountRef st' = Some kids
       end.
Proof.
  intros listeners'. subst listeners'. unfold Scene.cleanup.
  scene_step.
  destruct (Scene.mountRef st) as [kids|] eqn:Hm.
  - destruct (existsb (Nat.eqb (Scene.renderer l)) kids) eqn:Hin.
    + erewrite sbind_ok;
        [|unfold Scene.mountRef_removeChild; scene_norm;
          rewrite Hin; reflexivity].
      scene_norm. do 2 scene_step.
      erewrite sbind_ok; [|apply dispose_emojis_spec]. scene_norm.
      unfold Scene.dispose. scene_norm.
      eexists. eexists. split; [reflexivity|]. scene_norm.
      repeat split. rewrite <- !app_assoc. reflexivity.
    + erewrite sbind_throw;
        [|unfold Scene.mountRef_removeChild; scene_norm;
          rewrite Hin; reflexivity].
      eexists. eexists. split; [reflexivity|]. scene_norm.
      repeat split.
  - erewrite sbind_throw;
      [|unfold Scene.mountRef_removeChild; scene_norm; reflexivity].
    eexists. eexists. split; [reflexivity|]. scene_norm.
    repeat split.
Qed.

Lemma cleanup_ok_spec (l : Scene.Locals) (st : Scene.Stage) (kids : list nat) :
  Scene.mountRef st = Some kids ->
  existsb (Nat.eqb (Scene.renderer l)) kids = true ->
  Scene.cleanup l st
  = (inr tt,
     {| Scene.nextId := Scene.nextId st; Scene.draws := Scene.draws st;
        Scene.emojisRef := Scene.emojisRef st;
        Scene.mountRef :=
          Some (filter (fun k => negb (Nat.eqb k (Scene.renderer l))) kids);
        Scene.sceneChildren := Scene.sceneChildren st;
        Scene.resizeListeners :=
          filter (fun g => negb (Nat.eqb g (Scene.handleResize l)))
                 (Scene.resizeListeners st);
        Scene.disposed :=
          Scene.disposed st
          ++ [Scene.geometry l; Scene.material l]
          ++ flat_map Scene.sprite_disposals (Scene.emojisRef st)
          ++ [Scene.renderer l];
        Scene.animateCalls := Scene.animateCalls st |}).
Proof.
  intros Hm Hin. unfold Scene.cleanup.
  scene_step.
  erewrite sbind_ok;
    [|unfold Scene.mountRef_removeChild; scene_norm;
      rewrite Hm, Hin; reflexivity].
  scene_norm. do 2 scene_step.
  erewrite sbind_ok; [|apply dispose_emojis_spec]. scene_norm.
  unfold Scene.dispose. scene_norm.
  rewrite <- !app_assoc. reflexivity.
Qed.

Lemma filter_fresh_snoc (n h : nat) (l : list nat) :
  Forall (fun k => k < n) l -> n <= h ->
  filter (fun k => negb (Nat.eqb k h)) (l ++ [h]) = l.
Proof.
  intros Hl Hh. rewrite filter_app, (filter_fresh n h l Hl Hh).
  cbn. rewrite Nat.eqb_refl. cbn. apply app_nil_r.
Qed.

Lemma new_sprites_below (n d h : nat) :
  In h (flat_map Scene.sprite_disposals
          (map (fun k => Scene.sprite_at (n + 1 + 4 * k) (d + 5 * k))
               (seq 0 Scene.emojiParticleCount))) ->
  n < h < n + 61.
Proof.
  intros H. apply in_flat_map in H. destruct H as [s [Hs Hh]].
  apply in_map_iff in Hs. destruct Hs as [k [<- Hk]].
  apply in_seq in Hk. unfold Scene.emojiParticleCount in Hk.
  cbn in Hh. destruct Hh as [<-|[<-|[]]]; lia.
Qed.

Lemma old_sprites_below (n h : nat) (l : list Scene.Sprite) :
  Forall (fun s =>
            Scene.texture_id (Scene.material_map (Scene.sprite_material s)) < n
            /\ Scene.material_id (Scene.sprite_material s) < n) l ->
  In h (flat_map Scene.sprite_disposals l) -> h < n.
Proof.
  intros Hall H. apply in_flat_map in H. destruct H as [s [Hs Hh]].
  rewrite Forall_forall in Hall. destruct (Hall s Hs) as [H1 H2].
  cbn in Hh. destruct Hh as [<-|[<-|[]]]; assumption.
Qed.

(** X13: run on a page whose mount node is attached, the effect
    succeeds.  It adds exactly [emojiParticleCount] = 15 sprites to
    [emojisRef.current], after those it already holds, each a new sprite
    on a new material on a new texture of a new canvas; it builds a buffer
    of 600 positions, appends the renderer's element as the last child of
    the mount node, registers one resize listener, disposes of nothing,
    and calls [animate] once.  (Nothing is stated about what [animate]
    does to the sprites' positions or about the number of
    [Math.random()] calls.) *)
Theorem effect_adds_sprites_listener_and_element
  (st : Scene.Stage) (kids : list nat) :
  Scene.mountRef st = Some kids ->
  Scene.well_formed st ->
  exists l st1,
    Scene.effect st = (inr l, st1)
    /\ map sprite_parts (Scene.emojisRef st1)
       = map sprite_parts (Scene.emojisRef st)
         ++ map (fun k => let n := Scene.nextId st + 1 + 4 * k in
                          (n + 3, n + 2, n + 1, n))
                (seq 0 Scene.emojiParticleCount)
    /\ List.length (Scene.emojisRef st1)
       = List.length (Scene.emojisRef st) + 15
    /\ List.length (Scene.positions l) = 600
    /\ Scene.mountRef st1 = Some (kids ++ [Scene.renderer l])
    /\ Scene.resizeListeners st1
       = Scene.resizeListeners st ++ [Scene.handleResize l]
    /\ Scene.disposed st1 = Scene.disposed st
    /\ Scene.animateCalls st1 = S (Scene.animateCalls st).
Proof.
  intros Hm Hwf. pose proof (effect_spec st kids Hm Hwf) as E.
  cbv zeta in E. eexists. eexists. split; [exact E|].
  scene_norm. cbn [Scene.positions Scene.renderer Scene.handleResize].
  rewrite map_app, map_map, length_app, !length_map, !length_seq.
  repeat split.
Qed.

Lemma effect_adds_sprites_listener_and_element_witness :
  exists l st1,
    Scene.effect Scene.first_mount = (inr l, st1)
    /\ List.length (Scene.emojisRef st1) = 15
    /\ Scene.mountRef st1 = Some [Scene.renderer l].
Proof.
  destruct (effect_adds_sprites_listener_and_element Scene.first_mount [])
    as (l & st1 & E & _ & Hlen & _ & Hm & _).
  - reflexivity.
  - repeat split; try constructor. intros kids H. inversion H. constructor.
  - exists l, st1. split; [exact E|]. split; [exact Hlen | exact Hm].
Defined.

(** X14: one mount followed by its cleanup, on a page whose mount node
    stays attached.  The cleanup succeeds and disposes of the sphere's
    geometry and material, of the texture and material of every sprite in
    [emojisRef.current] (those left by earlier mounts included) and of the
    renderer.  It never disposes of the particles' geometry or material.
    The mount node and the resize listeners are as before the mount, but
    [emojisRef.current] still holds the 15 sprites added, and the stage
    is again one on which the effect can run. *)
Theorem effect_then_cleanup_releases
  (st : Scene.Stage) (kids : list nat) :
  Scene.mountRef st = Some kids ->
  Scene.well_formed st ->
  exists l st1 st2 released,
    Scene.effect st = (inr l, st1)
    /\ Scene.cleanup l st1 = (inr tt, st2)
    /\ Scene.disposed st2 = Scene.disposed st ++ released
    /\ released = [Scene.geometry l; Scene.material l]
                  ++ flat_map Scene.sprite_disposals (Scene.emojisRef st1)
                  ++ [Scene.renderer l]
    /\ ~ In (Scene.particleGeometry l) released
    /\ ~ In (Scene.particleMaterial l) released
    /\ List.length (Scene.emojisRef st2)
       = List.length (Scene.emojisRef st) + 15
    /\ Scene.mountRef st2 = Some kids
    /\ Scene.resizeListeners st2 = Scene.resizeListeners st
    /\ Scene.well_formed st2.
Proof.
  intros Hm Hwf. pose proof (effect_spec st kids Hm Hwf) as E.
  cbv zeta in E. destruct Hwf as (Hl & Hk & Hs). specialize (Hk kids Hm).
  set (n := Scene.nextId st) in *.
  match type of E with _ = (inr ?l0, ?s1) => set (l := l0) in *; set (st1 := s1) in * end.
  assert (Hm1 : Scene.mountRef st1 = Some (kids ++ [n + 62])) by reflexivity.
  assert (Hin : existsb (Nat.eqb (Scene.renderer l)) (kids ++ [n + 62]) = true).
  { rewrite existsb_app. cbn. rewrite Nat.eqb_refl. now rewrite orb_true_r. }
  pose proof (cleanup_ok_spec l st1 _ Hm1 Hin) as C.
  match type of C with _ = (inr tt, ?s2) => set (st2 := s2) in * end.
  set (released := [Scene.geometry l; Scene.material l]
                   ++ flat_map Scene.sprite_disposals (Scene.emojisRef st1)
                   ++ [Scene.renderer l]).
  assert (Hbound : forall h, In h released -> h < n + 66).
  { intros h Hh. unfold released in Hh. cbn [app] in Hh.
    destruct Hh as [<-|[<-|Hh]]; [cbn; lia | cbn; lia |].
    apply in_app_or in Hh. destruct Hh as [Hh|[<-|[]]]; [|cbn; lia].
    unfold st1 in Hh. cbn [Scene.emojisRef] in Hh.
    rewrite flat_map_app in Hh. apply in_app_or in Hh. destruct Hh as [Hh|Hh].
    - pose proof (old_sprites_below n h _ Hs Hh). lia.
    - pose proof (new_sprites_below n _ h Hh). lia. }
  exists l, st1, st2, released.
  split; [exact E|]. split; [exact C|]. split; [reflexivity|].
  split; [reflexivity|].
  split; [intros H; apply Hbound in H; cbn in H; lia|].
  split; [intros H; apply Hbound in H; cbn in H; lia|].
  split.
  { unfold st2, st1. cbn [Scene.emojisRef].
    now rewrite length_app, length_map, length_seq. }
  split.
  { unfold st2. cbn [Scene.mountRef Scene.renderer l]. f_equal.
    apply (filter_fresh_snoc n); [exact Hk | lia]. }
  split.
  { unfold st2, st1. cbn [Scene.resizeListeners Scene.handleResize l].
    apply (filter_fresh_snoc n); [exact Hl | lia]. }
  unfold Scene.well_formed, st2, st1.
  cbn [Scene.nextId Scene.resizeListeners Scene.mountRef Scene.emojisRef
       Scene.renderer Scene.handleResize l].
  split; [|split].
  - rewrite (filter_fresh_snoc n _ _ Hl) by lia.
    eapply forall_lt_weaken; [exact Hl | lia].
  - intros kids' Hk'. inversion Hk' as [Hk'']. 
    rewrite (filter_fresh_snoc n _ _ Hk) by lia.
    eapply forall_lt_weaken; [exact Hk | lia].
  - apply Forall_app. split.
    + eapply Forall_impl; [|exact Hs]. cbn. intros s [H1 H2]. split; lia.
    + apply Forall_forall. intros s Hin'.
      apply in_map_iff in Hin'. destruct Hin' as [k [<- Hk']].
      apply in_seq in Hk'. unfold Scene.emojiParticleCount in Hk'.
      cbn. split; lia.
Qed.

Lemma effect_then_cleanup_releases_witness :
  exists l st1 st2 released,
    Scene.effect Scene.first_mount = (inr l, st1)
    /\ Scene.cleanup l st1 = (inr tt, st2)
    /\ Scene.disposed st2 = released
    /\ ~ In (Scene.particleGeometry l) released
    /\ List.length (Scene.emojisRef st2) = 15.
Proof.
  destruct (effect_then_cleanup_releases Scene.first_mount [])
    as (l & st1 & st2 & released & E & C & Hd & _ & Hp & _ & Hlen & _).
  - reflexivity.
  - repeat split; try constructor. intros kids H. inversion H. constructor.
  - exists l, st1, st2, released.
    split; [exact E|]. split; [exact C|]. split; [exact Hd|].
    split; [exact Hp | exact Hlen].
Defined.
